(** * pyelftools: the decoding substrate and the DWARF abbreviation table

    A shallow embedding of [elftools/common/utils.py] and
    [elftools/dwarf/abbrevtable.py], with the properties the specification
    states about them.

    Conventions of the embedding:
    - Python integers are [Z]; stream offsets and lengths, which the stream
      refuses when negative, are [nat];
    - a [bytes] value is a [list byte];
    - a dict is a [gmap];
    - a call that may raise returns a [result]; code that touches the shared
      byte stream takes the stream and returns the stream it leaves behind;
    - every access to the byte stream is recorded in the stream's [log], so
      that two equal streams have seen the same accesses. *)

From Stdlib Require Import ZArith List Lia Ascii String Bool.
From Stdlib.Strings Require Import Byte.
From stdpp Require Import base option list gmap strings.

Import ListNotations.
Open Scope Z_scope.

(** ** Exceptions *)

(** The exception classes the two modules raise, catch or let through.
    [ConstructError] stands for the layout engine's error class and all its
    subclasses; its argument is [str(e)]. *)
Inductive exn : Type :=
| KeyError (key : Z)
| ELFError (msg : string)
| ELFParseError (msg : string)
| DWARFError (msg : string)
| ConstructError (msg : string).

Inductive result (A : Type) : Type :=
| Return (a : A)
| Raise (e : exn).

Arguments Return {A} a.
Arguments Raise {A} e.

(** [KeyError] is the exception Python's mappings raise for a missing key. *)
Definition is_KeyError (e : exn) : bool :=
  match e with KeyError _ => true | _ => false end.

Definition is_ELFParseError (e : exn) : bool :=
  match e with ELFParseError _ => true | _ => false end.

Definition is_ConstructError (e : exn) : bool :=
  match e with ConstructError _ => true | _ => false end.

(** ** The byte stream *)

Module Stream.

Inductive access : Type :=
| Seek (offset : nat)
| Read (size : nat)
| Tell.

(** A seekable in-memory byte stream. [log] lists the calls made on the
    stream, the latest first. *)
Record t : Type := mk {
  data : list byte;
  pos : nat;
  log : list access
}.

Definition tell (s : t) : nat * t :=
  (pos s, mk (data s) (pos s) (Tell :: log s)).

(** [seek] accepts any offset, also one past the end of the data. *)
Definition seek (offset : nat) (s : t) : t :=
  mk (data s) offset (Seek offset :: log s).

(** [read size] returns the next [size] bytes, fewer at the end of the
    data, and advances by what it returned. *)
Definition read (size : nat) (s : t) : list byte * t :=
  let chunk := take size (drop (pos s) (data s)) in
  (chunk, mk (data s) (pos s + length chunk) (Read size :: log s)).

(** The bytes from the current position on. *)
Definition rest (s : t) : list byte := drop (pos s) (data s).

Definition of_bytes (bs : list byte) : t := mk bs 0 [].

(** The offsets of the seeks in a log, the latest first. *)
Definition seeks (l : list access) : list nat :=
  omap (fun a => match a with Seek offset => Some offset | _ => None end) l.

End Stream.

Abbreviation Stream := Stream.t.

(** ** The record layout engine

    The engine ([construct]) is an external collaborator. A layout decodes
    by reading the stream from its current position: what it returns, where
    it leaves the stream and which accesses it makes are a function of the
    stream's data and position. *)
Record Struct (A : Type) : Type := {
  _parse : list byte -> nat -> list Stream.access * nat * result A
}.

Arguments _parse {A} _ _ _.

Definition parse_stream {A} (struct : Struct A) (stream : Stream)
  : Stream * result A :=
  let '(accesses, pos', r) :=
    _parse struct (Stream.data stream) (Stream.pos stream) in
  (Stream.mk (Stream.data stream) pos' (accesses ++ Stream.log stream), r).

(** ** [elftools/common/utils.py] *)

(** [struct_parse(struct, stream, stream_pos=None)]. *)
Definition struct_parse {A} (struct : Struct A) (stream : Stream)
    (stream_pos : option nat) : Stream * result A :=
  let stream :=
    match stream_pos with
    | Some p => Stream.seek p stream
    | None => stream
    end in
  match parse_stream struct stream with
  | (stream, Return v) => (stream, Return v)
  | (stream, Raise (ConstructError msg)) => (stream, Raise (ELFParseError msg))
  | (stream, Raise e) => (stream, Raise e)
  end.

(** [bytes.find(b'\x00')]: the index of the first occurrence, or [-1]. *)
Fixpoint bytes_find (sub : byte) (chunk : list byte) : Z :=
  match chunk with
  | [] => -1
  | b :: chunk' =>
      if Byte.eqb b sub then 0
      else let i := bytes_find sub chunk' in
           if i <? 0 then -1 else i + 1
  end.

Definition CHUNKSIZE : nat := 64.

(** The [while True] loop of [parse_cstring_from_stream]; the result is the
    stream, the list [chunks] and the flag [found]. [fuel] bounds the number
    of iterations; [None] means the bound was reached. *)
Fixpoint cstring_loop (fuel : nat) (stream : Stream) (chunks : list (list byte))
  : option (Stream * list (list byte) * bool) :=
  match fuel with
  | O => None
  | S fuel =>
      let '(chunk, stream) := Stream.read CHUNKSIZE stream in
      let end_index := bytes_find x00 chunk in
      if 0 <=? end_index then
        Some (stream, chunks ++ [take (Z.to_nat end_index) chunk], true)
      else
        let chunks := chunks ++ [chunk] in
        if (length chunk <? CHUNKSIZE)%nat then Some (stream, chunks, false)
        else cstring_loop fuel stream chunks
  end.

(** [parse_cstring_from_stream(stream, stream_pos=None)]; the inner option
    is Python's [None] for a string without terminator. *)
Definition parse_cstring_from_stream (fuel : nat) (stream : Stream)
    (stream_pos : option nat) : option (Stream * option (list byte)) :=
  let stream :=
    match stream_pos with
    | Some p => Stream.seek p stream
    | None => stream
    end in
  match cstring_loop fuel stream [] with
  | Some (stream, chunks, found) =>
      Some (stream, if found then Some (concat chunks) else None)
  | None => None
  end.

(** [_assert_with_exception(cond, msg, exception_type)]. *)
Definition _assert_with_exception (cond : bool) (msg : string)
    (exception_type : string -> exn) : result unit :=
  if negb cond then Raise (exception_type msg) else Return tt.

(** [elf_assert(cond, msg='')]. *)
Definition elf_assert (cond : bool) (msg : string) : result unit :=
  _assert_with_exception cond msg ELFError.

(** [dwarf_assert(cond, msg='')]. *)
Definition dwarf_assert (cond : bool) (msg : string) : result unit :=
  _assert_with_exception cond msg DWARFError.

(** [preserve_stream_pos(stream)] used as [with preserve_stream_pos(stream):
    body]. The context manager is made from a generator by
    [contextlib.contextmanager]: entering the block runs the generator up to
    its [yield]; leaving it normally resumes the generator after the
    [yield]; leaving it by an exception throws the exception into the
    generator at the [yield], where nothing catches it, so the generator
    ends there and the exception goes on to the caller. *)
Definition preserve_stream_pos {A} (body : Stream -> Stream * result A)
    (stream : Stream) : Stream * result A :=
  let '(saved_pos, stream) := Stream.tell stream in
  match body stream with
  | (stream, Return v) => (Stream.seek saved_pos stream, Return v)
  | (stream, Raise e) => (stream, Raise e)
  end.

(** [roundup(num, bits)], that is [((num - 1) | ((1 << bits) - 1)) + 1]. *)
Definition roundup (num bits : Z) : Z :=
  Z.lor (num - 1) (Z.shiftl 1 bits - 1) + 1.

(** Python's private name mangling, which applies to the name a [def] in a
    class body binds: a name that starts with two underscores, does not end
    with two underscores and holds no dot becomes [_Class__name], where
    [Class] is the class name without its leading underscores, unless
    nothing is left of the class name. *)
Fixpoint lstrip_underscores (s : string) : string :=
  match s with
  | String "_"%char s' => lstrip_underscores s'
  | _ => s
  end.

Definition starts_with_two_underscores (s : string) : bool :=
  match s with
  | String "_"%char (String "_"%char _) => true
  | _ => false
  end.

Fixpoint ends_with_two_underscores (s : string) : bool :=
  match s with
  | String "_"%char (String "_"%char EmptyString) => true
  | String _ s' => ends_with_two_underscores s'
  | EmptyString => false
  end.

Fixpoint has_dot (s : string) : bool :=
  match s with
  | String "."%char _ => true
  | String _ s' => has_dot s'
  | EmptyString => false
  end.

Definition mangle (class_name name : string) : string :=
  if starts_with_two_underscores name
     && negb (ends_with_two_underscores name)
     && negb (has_dot name)
     && negb (String.eqb (lstrip_underscores class_name) EmptyString)
  then String.append "_" (String.append (lstrip_underscores class_name) name)
  else name.

(** The decorator class [lazy]. Values of attributes are of an arbitrary type
    [V]. *)
Section Lazy.

Context {V : Type}.

(** A Python function of the one argument [self]: its [__name__], and the
    value it derives from the instance's [__dict__]. *)
Record function : Type := {
  __name__ : string;
  __call__ : gmap string V -> V
}.

(** An instance: its [__dict__], and the names of the functions that have
    been called on it, the latest first. *)
Record object : Type := {
  __dict__ : gmap string V;
  calls : list string
}.

Record lazy : Type := { _getter : function }.

Definition lazy__init__ (getter : function) : lazy :=
  {| _getter := getter |}.

Definition lazy__get__ (self : lazy) (obj : object) : object * V :=
  let getter := _getter self in
  let val := __call__ getter (__dict__ obj) in
  ({| __dict__ := <[__name__ getter := val]> (__dict__ obj);
      calls := __name__ getter :: calls obj |},
   val).

(** [@lazy] before [def getter(self)] in the body of the class
    [class_name] binds the descriptor to the name of the function, mangled
    as the class body mangles it; the [__name__] of the function stays as
    written. *)
Definition decorate (class_name : string) (cls : gmap string lazy)
    (getter : function) : gmap string lazy :=
  <[mangle class_name (__name__ getter) := lazy__init__ getter]> cls.

Definition class_of (class_name : string) (getters : list function)
  : gmap string lazy :=
  foldl (decorate class_name) ∅ getters.

(** [obj.name] for a class whose attributes are [lazy] descriptors. [lazy]
    defines [__get__] only, so an entry of the instance's [__dict__] takes
    precedence over it. [None] is [AttributeError]. *)
Definition getattr (cls : gmap string lazy) (obj : object) (name : string)
  : object * option V :=
  match __dict__ obj !! name with
  | Some v => (obj, Some v)
  | None =>
      match cls !! name with
      | Some descr => let '(obj, v) := lazy__get__ descr obj in (obj, Some v)
      | None => (obj, None)
      end
  end.

(** A sequence of attribute reads on one instance. *)
Definition getattrs (cls : gmap string lazy) (obj : object)
    (names : list string) : object :=
  foldl (fun obj name => fst (getattr cls obj name)) obj names.

End Lazy.

Arguments function : clear implicits.
Arguments object : clear implicits.
Arguments lazy : clear implicits.

(** A class in which every descriptor sits under the name of its
    function. *)
Definition decorated {V} (cls : gmap string (lazy V)) : Prop :=
  forall name descr, cls !! name = Some descr -> __name__ (_getter descr) = name.

(** Every function called on the instance has its value stored, and was
    called once. *)
Definition called_once {V} (obj : object V) : Prop :=
  NoDup (calls obj) /\ forall n, n ∈ calls obj -> is_Some (__dict__ obj !! n).

(** ** [elftools/dwarf/abbrevtable.py] *)

Module AbbrevDecl.
Record t (Container : Type) : Type := mk {
  code : Z;
  decl : Container
}.
Arguments mk {Container} code decl.
Arguments code {Container} _.
Arguments decl {Container} _.
End AbbrevDecl.

Abbreviation AbbrevDecl := AbbrevDecl.t.

(** The two layouts of [DWARFStructs] the table uses. [Container] is the type
    of a decoded declaration. *)
Record DWARFStructs (Container : Type) : Type := {
  Dwarf_uleb128 : string -> Struct Z;
  Dwarf_abbrev_declaration : Struct Container
}.

Arguments Dwarf_uleb128 {Container} _ _.
Arguments Dwarf_abbrev_declaration {Container} _.

(** The state of the generator object made by [_abbrev_table_parser()]:
    not started yet, suspended at the [yield] with the local variable
    [offset], or finished (after [break] or after an exception left it). *)
Inductive generator : Type :=
| GenCreated
| GenSuspended (offset : nat)
| GenFinished.

Section AbbrevTable.

Context {Container : Type}.
Variable structs : DWARFStructs Container.

(** The fields of the table; [structs] is fixed above and [stream], an
    object shared with the callers, is passed to each method. *)
Record AbbrevTable : Type := {
  offset : nat;
  _parser_state : generator;
  _abbrev_map : gmap Z (AbbrevDecl Container)
}.

Definition AbbrevTable__init__ (offset : nat) : AbbrevTable :=
  {| offset := offset; _parser_state := GenCreated; _abbrev_map := ∅ |}.

(** The body of [_abbrev_table_parser] from the top of [while True], with
    the local [offset], to where it leaves: [Return None] at [break],
    [Raise] for an exception, [Return (Some d)] at [yield d]. *)
Definition _abbrev_table_parser (stream : Stream) (offset : nat)
  : Stream * generator * result (option (AbbrevDecl Container)) :=
  let stream := Stream.seek offset stream in
  match struct_parse (Dwarf_uleb128 structs EmptyString) stream None with
  | (stream, Raise e) => (stream, GenFinished, Raise e)
  | (stream, Return decl_code) =>
      if decl_code =? 0 then (stream, GenFinished, Return None)
      else
        match struct_parse (Dwarf_abbrev_declaration structs) stream None with
        | (stream, Raise e) => (stream, GenFinished, Raise e)
        | (stream, Return declaration) =>
            let '(offset, stream) := Stream.tell stream in
            (stream, GenSuspended offset,
             Return (Some (AbbrevDecl.mk decl_code declaration)))
        end
  end.

(** [next(self._parser_state)]; [Return None] is [StopIteration]. *)
Definition next (self : AbbrevTable) (stream : Stream)
  : Stream * generator * result (option (AbbrevDecl Container)) :=
  match _parser_state self with
  | GenCreated => _abbrev_table_parser stream (offset self)
  | GenSuspended offset => _abbrev_table_parser stream offset
  | GenFinished => (stream, GenFinished, Return None)
  end.

(** The [for decl in self._parser_state] loop of [get_abbrev] and the
    [raise KeyError(code)] after it. [fuel] bounds the number of
    iterations; [None] means the bound was reached. *)
Fixpoint get_abbrev_loop (fuel : nat) (self : AbbrevTable) (stream : Stream)
    (code : Z) : option (Stream * AbbrevTable * result (AbbrevDecl Container)) :=
  match fuel with
  | O => None
  | S fuel =>
      match next self stream with
      | (stream, gen, Raise e) =>
          Some (stream,
                {| offset := offset self; _parser_state := gen;
                   _abbrev_map := _abbrev_map self |},
                Raise e)
      | (stream, gen, Return None) =>
          Some (stream,
                {| offset := offset self; _parser_state := gen;
                   _abbrev_map := _abbrev_map self |},
                Raise (KeyError code))
      | (stream, gen, Return (Some decl)) =>
          let self :=
            {| offset := offset self; _parser_state := gen;
               _abbrev_map := <[AbbrevDecl.code decl := decl]> (_abbrev_map self) |} in
          if AbbrevDecl.code decl =? code then Some (stream, self, Return decl)
          else get_abbrev_loop fuel self stream code
      end
  end.

Definition get_abbrev (fuel : nat) (self : AbbrevTable) (stream : Stream)
    (code : Z) : option (Stream * AbbrevTable * result (AbbrevDecl Container)) :=
  match _abbrev_map self !! code with
  | Some decl => Some (stream, self, Return decl)
  | None => get_abbrev_loop fuel self stream code
  end.

End AbbrevTable.

Arguments AbbrevTable : clear implicits.
Arguments AbbrevTable__init__ {Container} offset.
Arguments offset {Container} _.
Arguments _parser_state {Container} _.
Arguments _abbrev_map {Container} _.

(** ** The layouts of the abbreviation table *)

(** The decoded body of a declaration: the fields [tag], [children_flag] and
    [attr_spec], as numbers. *)
Record abbrev_declaration : Type := {
  tag : Z;
  children_flag : Z;
  attr_spec : list (Z * Z)
}.

Definition byte_value (b : byte) : Z := Z.of_N (Byte.to_N b).

(** Modelled from the spec: the unsigned LEB128 layout [Dwarf_uleb128] of
    [elftools/dwarf/structs.py], which is not under src/. Seven bits a byte,
    the least significant group first, the last byte below [0x80]. The
    result is the value and the number of bytes it took; [None] when the
    bytes end first. *)
Fixpoint uleb128_decode (bs : list byte) : option (Z * nat) :=
  match bs with
  | [] => None
  | b :: bs =>
      if byte_value b <? 128 then Some (byte_value b, 1%nat)
      else
        match uleb128_decode bs with
        | Some (v, n) => Some (Z.land (byte_value b) 127 + Z.shiftl v 7, S n)
        | None => None
        end
  end.

(** Modelled from the spec: the list [attr_spec* (0,0)] of the layout
    [Dwarf_abbrev_declaration] of [elftools/dwarf/structs.py], which is not
    under src/: pairs [name:uleb128 form:uleb128] up to and without the pair
    [(0, 0)]. [fuel] bounds the number of pairs. *)
Fixpoint attr_spec_decode (fuel : nat) (bs : list byte)
  : option (list (Z * Z) * nat) :=
  match fuel with
  | O => None
  | S fuel =>
      match uleb128_decode bs with
      | None => None
      | Some (name, n1) =>
          match uleb128_decode (drop n1 bs) with
          | None => None
          | Some (form, n2) =>
              if (name =? 0) && (form =? 0) then Some ([], (n1 + n2)%nat)
              else
                match attr_spec_decode fuel (drop (n1 + n2) bs) with
                | Some (specs, n) => Some ((name, form) :: specs, (n1 + n2 + n)%nat)
                | None => None
                end
          end
      end
  end.

(** Modelled from the spec: the body [tag:uleb128 children:u8 attr_spec*
    (0,0)] of an entry, the layout [Dwarf_abbrev_declaration] of
    [elftools/dwarf/structs.py], which is not under src/. *)
Definition abbrev_declaration_decode (bs : list byte)
  : option (abbrev_declaration * nat) :=
  match uleb128_decode bs with
  | None => None
  | Some (tag, n1) =>
      match drop n1 bs with
      | [] => None
      | children :: bs' =>
          match attr_spec_decode (length bs') bs' with
          | Some (specs, n2) =>
              Some ({| tag := tag; children_flag := byte_value children;
                       attr_spec := specs |},
                    (n1 + 1 + n2)%nat)
          | None => None
          end
      end
  end.

(** Modelled from the spec: how a layout of [elftools/dwarf/structs.py],
    which is not under src/, reads the stream. A layout is made from a
    decoder of byte lists; it reads byte by byte, and a failed decode has
    read to the end of the data and asked for one byte more. *)
Definition struct_of_decoder {A} (decode : list byte -> option (A * nat))
  : Struct A :=
  {| _parse := fun data pos =>
       match decode (drop pos data) with
       | Some (v, n) =>
           (repeat (Stream.Read 1) n, (pos + n)%nat, Return v)
       | None =>
           (repeat (Stream.Read 1) (S (length (drop pos data))),
            (pos + length (drop pos data))%nat,
            Raise (ConstructError "expected 1, found 0"))
       end |}.

(** Modelled from the spec: the part of [DWARFStructs]
    ([elftools/dwarf/structs.py], not under src/) the table uses. *)
Definition dwarf_structs : DWARFStructs abbrev_declaration :=
  {| Dwarf_uleb128 := fun _ => struct_of_decoder uleb128_decode;
     Dwarf_abbrev_declaration := struct_of_decoder abbrev_declaration_decode |}.

(** ** Notions used to state the properties *)

(** The bytes of [bs] before its first null byte; [None] when [bs] has no
    null byte. *)
Fixpoint cstring_of (bs : list byte) : option (list byte) :=
  match bs with
  | [] => None
  | b :: bs => if Byte.eqb b x00 then Some [] else cons b <$> cstring_of bs
  end.

Section TableLayout.

Context {Container : Type}.
Variable structs : DWARFStructs Container.

(** What the layouts are assumed to do: a decoded varint has taken at
    least one byte of the data, a decoded body does not move backwards,
    and a failed decode raises the engine's error. *)
Record well_behaved : Prop := {
  uleb128_advances : forall name data p tr p' v,
    _parse (Dwarf_uleb128 structs name) data p = (tr, p', Return v) ->
    (p < p' <= length data)%nat;
  declaration_advances : forall data p tr p' v,
    _parse (Dwarf_abbrev_declaration structs) data p = (tr, p', Return v) ->
    (p <= p')%nat;
  uleb128_raises : forall name data p tr p' e,
    _parse (Dwarf_uleb128 structs name) data p = (tr, p', Raise e) ->
    is_ConstructError e = true;
  declaration_raises : forall data p tr p' e,
    _parse (Dwarf_abbrev_declaration structs) data p = (tr, p', Raise e) ->
    is_ConstructError e = true
}.

(** The entry of the wire format at [offset]: a non-zero code and a body;
    with it, the offset after the entry. *)
Definition entry_at (data : list byte) (offset : nat)
  : option (AbbrevDecl Container * nat) :=
  match _parse (Dwarf_uleb128 structs EmptyString) data offset with
  | (_, p1, Return decl_code) =>
      if decl_code =? 0 then None
      else
        match _parse (Dwarf_abbrev_declaration structs) data p1 with
        | (_, p2, Return declaration) =>
            Some (AbbrevDecl.mk decl_code declaration, p2)
        | _ => None
        end
  | _ => None
  end.

(** The terminator of the wire format at [offset]: a varint 0. *)
Definition terminator_at (data : list byte) (offset : nat) : Prop :=
  exists tr p, _parse (Dwarf_uleb128 structs EmptyString) data offset = (tr, p, Return 0).

(** The entries [entries] lie one after the other from [offset] to
    [offset']. *)
Fixpoint entries_at (data : list byte) (offset : nat)
    (entries : list (AbbrevDecl Container)) (offset' : nat) : Prop :=
  match entries with
  | [] => offset' = offset
  | d :: entries =>
      exists next_offset,
        entry_at data offset = Some (d, next_offset) /\
        entries_at data next_offset entries offset'
  end.

(** The accesses to the stream that decoding the entry at [offset] makes,
    the latest first: the seek to [offset], the reads of the two layouts,
    the [tell]. *)
Definition entry_accesses (data : list byte) (offset : nat)
  : list Stream.access :=
  let '(tr1, p1, _) := _parse (Dwarf_uleb128 structs EmptyString) data offset in
  let '(tr2, _, _) := _parse (Dwarf_abbrev_declaration structs) data p1 in
  Stream.Tell :: tr2 ++ tr1 ++ [Stream.Seek offset].

(** The table's decode cursor: where the next entry will be decoded, if the
    parser has not finished. *)
Definition cursor (self : AbbrevTable Container) : option nat :=
  match _parser_state self with
  | GenCreated => Some (offset self)
  | GenSuspended offset => Some offset
  | GenFinished => None
  end.

(** The cache after the declarations [entries] were stored in order. *)
Definition cache_with (entries : list (AbbrevDecl Container))
    (m : gmap Z (AbbrevDecl Container)) : gmap Z (AbbrevDecl Container) :=
  foldl (fun m d => <[AbbrevDecl.code d := d]> m) m entries.

(** [evolves t t']: the table goes from state [t] to state [t'] by calls
    of [get_abbrev], with the shared stream in any state at each call. *)
Inductive evolves : AbbrevTable Container -> AbbrevTable Container -> Prop :=
| evolves_refl t : evolves t t
| evolves_step t fuel stream code stream' t' r t'' :
    get_abbrev structs fuel t stream code = Some (stream', t', r) ->
    evolves t' t'' ->
    evolves t t''.

Definition reachable (t : AbbrevTable Container) : Prop :=
  exists offset, evolves (AbbrevTable__init__ offset) t.

End TableLayout.

(** ** Operations and inputs used in the examples *)

(** An operation that moves the stream and then fails. *)
Definition seek_then_fail (offset : nat) (stream : Stream) : Stream * result unit :=
  (Stream.seek offset stream, Raise (ELFParseError "truncated")).

(** An operation that moves the stream and returns. *)
Definition seek_then_return (offset : nat) (stream : Stream) : Stream * result unit :=
  (Stream.seek offset stream, Return tt).

(** A stream with two bytes of padding and, from offset 2, a table of three
    entries, of codes 3, 1 and 7, and the terminator:
    - at 2: code 3, tag 0x11, children 1, attributes (0x03, 0x08);
    - at 9: code 1, tag 0x24, children 0, attributes (0x0b, 0x0b);
    - at 16: code 7, tag 0x34, children 0, attributes (0x03, 0x0e),
      (0x49, 0x13);
    - at 25: the terminator. *)
Definition table_3_1_7 : list byte :=
  [xff; xff;
   x03; x11; x01; x03; x08; x00; x00;
   x01; x24; x00; x0b; x0b; x00; x00;
   x07; x34; x00; x03; x0e; x49; x13; x00; x00;
   x00].

Definition body_3 : abbrev_declaration :=
  {| tag := 17; children_flag := 1; attr_spec := [(3, 8)] |}.

Definition body_1 : abbrev_declaration :=
  {| tag := 36; children_flag := 0; attr_spec := [(11, 11)] |}.

Definition body_7 : abbrev_declaration :=
  {| tag := 52; children_flag := 0; attr_spec := [(3, 14); (73, 19)] |}.

(** A string of 64 bytes whose terminator is the first byte of the second
    chunk, and one of 63 bytes whose terminator is the last byte of the
    first chunk. *)
Definition cstring_64 : list byte := repeat x41 64 ++ [x00; x42].

Definition cstring_63 : list byte := repeat x41 63 ++ [x00; x42].

(** A string of 3 bytes followed by 66 more bytes, and the same string at
    the end of the data. *)
Definition cstring_3_more : list byte := [x61; x62; x63; x00] ++ repeat x78 66.

Definition cstring_3_last : list byte := [x61; x62; x63; x00].

(** A table that repeats a code: from offset 0 two entries of code 3, with
    the tags 0x11 and 0x24, an entry of code 7 and the terminator. *)
Definition table_3_3_7 : list byte :=
  [x03; x11; x01; x03; x08; x00; x00;
   x03; x24; x00; x0b; x0b; x00; x00;
   x07; x34; x00; x03; x0e; x49; x13; x00; x00;
   x00].

(** A table cut short in its first entry. *)
Definition truncated_table : list byte := [x03; x11].

(** Two derivations on an instance with the attributes [w] and [h]. *)
Definition area : function Z :=
  {| __name__ := "area";
     __call__ := fun d => default 0 (d !! "w") * default 0 (d !! "h") |}.

Definition perimeter : function Z :=
  {| __name__ := "perimeter";
     __call__ := fun d => 2 * (default 0 (d !! "w") + default 0 (d !! "h")) |}.

(** A derivation under a private name. *)
Definition secret : function Z :=
  {| __name__ := "__secret";
     __call__ := fun d => default 0 (d !! "w") - default 0 (d !! "h") |}.

Definition rectangle (w h : Z) : object Z :=
  {| __dict__ := <["w" := w]> (<["h" := h]> ∅); calls := [] |}.

(** ** The rest of [elftools/common/utils.py] *)

Section MergeDicts.

Context `{Countable K} {V : Type}.

(** [merge_dicts] of any number of dicts: a new dict, updated with each of
    [dicts] in turn;
    [result.update(d)] gives the entries of [d] precedence. The order of the
    entries of a dict is not modelled. *)
Definition merge_dicts (dicts : list (gmap K V)) : gmap K V :=
  foldl (fun result d => d ∪ result) ∅ dicts.

End MergeDicts.

Section Bytelist.

(** [int2byte] of [py3compat], which is not under src/: from a byte value
    to a [bytes] object. *)
Variable int2byte : Z -> list byte.

(** [bytelist2string(bytelist)], that is [b''.join(int2byte(b) for b in
    bytelist)]. *)
Definition bytelist2string (bytelist : list Z) : list byte :=
  concat (map int2byte bytelist).

End Bytelist.

(** An [int2byte] for the examples: the one byte of value [x]. *)
Definition byte_of_value (x : Z) : list byte :=
  match Byte.of_N (Z.to_N x) with
  | Some b => [b]
  | None => []
  end.

(** ** More notions used to state the properties *)

(** The stream as [struct_parse] and [parse_cstring_from_stream] position it
    for an optional [stream_pos]. *)
Definition positioned (stream : Stream) (stream_pos : option nat) : Stream :=
  match stream_pos with
  | Some p => Stream.seek p stream
  | None => stream
  end.

(** [struct_parse] at an explicit offset, as the body of a [with
    preserve_stream_pos(stream)] block. *)
Definition guarded_struct_parse {A} (struct : Struct A) (offset : nat)
    (stream : Stream) : Stream * result A :=
  preserve_stream_pos (fun stream => struct_parse struct stream (Some offset)) stream.

Section TableHistory.

Context {Container : Type}.
Variable structs : DWARFStructs Container.

(** Every declaration of the cache is stored under its own code. *)
Definition keys_match (m : gmap Z (AbbrevDecl Container)) : Prop :=
  forall k d, m !! k = Some d -> AbbrevDecl.code d = k.

(** [evolves_on data t t']: the table goes from [t] to [t'] by calls of
    [get_abbrev] on a stream that holds [data] at each call. *)
Inductive evolves_on (data : list byte)
  : AbbrevTable Container -> AbbrevTable Container -> Prop :=
| evolves_on_refl t : evolves_on data t t
| evolves_on_step t fuel stream code stream' t' r t'' :
    Stream.data stream = data ->
    get_abbrev structs fuel t stream code = Some (stream', t', r) ->
    evolves_on data t' t'' ->
    evolves_on data t t''.

(** The decode of an entry at [offset] fails with the message [msg]: the
    layout of the code raises the engine's error, or it gives a non-zero
    code and the layout of the body raises the engine's error. *)
Definition decode_fails_at (data : list byte) (offset : nat) (msg : string)
  : Prop :=
  match _parse (Dwarf_uleb128 structs EmptyString) data offset with
  | (_, _, Raise e) => e = ConstructError msg
  | (_, p1, Return decl_code) =>
      decl_code <> 0 /\
      match _parse (Dwarf_abbrev_declaration structs) data p1 with
      | (_, _, Raise e) => e = ConstructError msg
      | (_, _, Return _) => False
      end
  end.

(** Every run of entries from [offset] has pairwise different codes. *)
Definition unique_codes (data : list byte) (offset : nat) : Prop :=
  forall es offset',
    entries_at structs data offset es offset' ->
    NoDup (map AbbrevDecl.code es).

(** The cache holds the entries of the table from its start to the cursor,
    in any case up to where the parser finished. *)
Definition holds_prefix (data : list byte) (t : AbbrevTable Container) : Prop :=
  exists es off',
    entries_at structs data (offset t) es off' /\
    _abbrev_map t = cache_with es ∅ /\
    (cursor t = Some off' \/ cursor t = None).

End TableHistory.

(** A number that differs from each element of a list of numbers is not in
    the list. *)
Ltac not_in_list :=
  let H := fresh "Hin" in
  intros H;
  repeat (apply elem_of_cons in H; destruct H as [H | H]; [discriminate H |]);
  apply elem_of_nil in H; exact H.

(** * Properties *)

(** ** [roundup] *)

Lemma lor_ones_low (x n : Z) :
  0 <= n -> Z.lor x (Z.ones n) = x - x mod 2 ^ n + (2 ^ n - 1).
Proof.
  intros Hn.
  assert (Hx : x - x mod 2 ^ n = Z.shiftl (Z.shiftr x n) n).
  { rewrite Z.shiftl_mul_pow2, Z.shiftr_div_pow2 by lia.
    pose proof (Z.div_mod x (2 ^ n)) as H.
    assert (2 ^ n <> 0) by (apply Z.pow_nonzero; lia). specialize (H H0). lia. }
  assert (Hones : 2 ^ n - 1 = Z.ones n).
  { rewrite Z.ones_equiv. lia. }
  rewrite Hx, Hones.
  assert (Hland : Z.land (Z.shiftl (Z.shiftr x n) n) (Z.ones n) = 0).
  { apply Z.bits_inj'. intros i Hi. rewrite Z.land_spec, Z.bits_0.
    destruct (Z.lt_ge_cases i n).
    - rewrite Z.shiftl_spec_low by lia. reflexivity.
    - rewrite Z.ones_spec_high by lia. apply andb_false_r. }
  rewrite Z.add_nocarry_lxor by exact Hland.
  rewrite Z.lxor_lor by exact Hland.
  apply Z.bits_inj'. intros i Hi. rewrite !Z.lor_spec.
  destruct (Z.lt_ge_cases i n).
  - rewrite Z.ones_spec_low by lia. rewrite !orb_true_r. reflexivity.
  - rewrite Z.ones_spec_high by lia. rewrite !orb_false_r.
    rewrite Z.shiftl_spec by lia. rewrite Z.shiftr_spec by lia.
    f_equal. lia.
Qed.

Lemma roundup_eq (num bits : Z) :
  0 <= bits ->
  roundup num bits = (num - 1) - (num - 1) mod 2 ^ bits + 2 ^ bits.
Proof.
  intros Hb. unfold roundup.
  rewrite Z.shiftl_1_l.
  replace (2 ^ bits - 1) with (Z.ones bits) by (rewrite Z.ones_equiv; lia).
  rewrite lor_ones_low by lia. lia.
Qed.

(** C8. For non-negative [num] and [bits], [roundup num bits] is the least
    multiple of [2 ^ bits] that is at least [num], so its [bits] least
    significant bits are 0; and [roundup 0 3 = 0], [roundup 1 3 = 8],
    [roundup 8 3 = 8], [roundup 9 3 = 16]. *)
Theorem roundup_least_multiple (num bits : Z) :
  0 <= num -> 0 <= bits ->
  (roundup num bits mod 2 ^ bits = 0 /\
   num <= roundup num bits /\
   (forall m, m mod 2 ^ bits = 0 -> num <= m -> roundup num bits <= m) /\
   (forall i, 0 <= i < bits -> Z.testbit (roundup num bits) i = false)) /\
  roundup 0 3 = 0 /\ roundup 1 3 = 8 /\ roundup 8 3 = 8 /\ roundup 9 3 = 16.
Proof.
  intros Hnum Hbits. split; [| repeat split; reflexivity].
  assert (Hpow : 0 < 2 ^ bits) by (apply Z.pow_pos_nonneg; lia).
  pose proof (Z.mod_pos_bound (num - 1) (2 ^ bits) Hpow) as Hmod.
  pose proof (Z.div_mod (num - 1) (2 ^ bits) ltac:(lia)) as Hdm.
  assert (Hr : roundup num bits = 2 ^ bits * ((num - 1) / 2 ^ bits + 1)).
  { rewrite roundup_eq by lia. lia. }
  assert (Hmul : roundup num bits mod 2 ^ bits = 0).
  { rewrite Hr, Z.mul_comm. apply Z.mod_mul. lia. }
  split; [exact Hmul |].
  split; [rewrite roundup_eq by lia; lia |].
  split.
  - intros m Hm Hle.
    apply Z.mod_divide in Hm; [| lia]. destruct Hm as [k Hk]. subst m.
    rewrite Hr.
    assert ((num - 1) / 2 ^ bits < k).
    { apply Z.div_lt_upper_bound; [lia |]. lia. }
    nia.
  - intros i Hi.
    apply Z.mod_divide in Hmul; [| lia]. destruct Hmul as [k Hk].
    rewrite Hk, <- Z.shiftl_mul_pow2 by lia.
    apply Z.shiftl_spec_low. lia.
Qed.

Lemma roundup_least_multiple_witness :
  (roundup 9 3 mod 2 ^ 3 = 0 /\
   9 <= roundup 9 3 /\
   (forall m, m mod 2 ^ 3 = 0 -> 9 <= m -> roundup 9 3 <= m) /\
   (forall i, 0 <= i < 3 -> Z.testbit (roundup 9 3) i = false)) /\
  roundup 0 3 = 0 /\ roundup 1 3 = 8 /\ roundup 8 3 = 8 /\ roundup 9 3 = 16.
Proof. apply (roundup_least_multiple 9 3); lia. Defined.

(** ** [struct_parse] *)

(** The stream [struct_parse] hands to the layout. *)
Lemma struct_parse_unfold {A} (struct : Struct A) (s : Stream) (sp : option nat) :
  struct_parse struct s sp =
  match parse_stream struct (from_option (fun p => Stream.seek p s) s sp) with
  | (s', Return v) => (s', Return v)
  | (s', Raise (ConstructError msg)) => (s', Raise (ELFParseError msg))
  | (s', Raise e) => (s', Raise e)
  end.
Proof. destruct sp; reflexivity. Qed.

(** C5. Whatever the layout and the stream: when the layout's decode raises
    [ConstructError] with message [msg], [struct_parse] raises
    [ELFParseError] with the same message; it never raises
    [ConstructError]; when the decode returns a value, [struct_parse]
    returns it. *)
Theorem struct_parse_translates_errors {A} (struct : Struct A) (s : Stream)
    (sp : option nat) :
  let positioned := from_option (fun p => Stream.seek p s) s sp in
  (forall s' msg,
     parse_stream struct positioned = (s', Raise (ConstructError msg)) ->
     struct_parse struct s sp = (s', Raise (ELFParseError msg))) /\
  (forall s' e,
     struct_parse struct s sp = (s', Raise e) -> is_ConstructError e = false) /\
  (forall s' v,
     parse_stream struct positioned = (s', Return v) ->
     struct_parse struct s sp = (s', Return v)).
Proof.
  intros positioned. rewrite struct_parse_unfold. fold positioned.
  destruct (parse_stream struct positioned) as [s1 [v | e]].
  - repeat split; intros; congruence.
  - repeat split.
    + intros s' msg H. inversion H; subst. reflexivity.
    + intros s' e' H. destruct e; inversion H; subst; reflexivity.
    + intros; congruence.
Qed.

(** ** [preserve_stream_pos] *)

(** The two exits of the block. When the wrapped operation returns, the
    stream's position after the block is its position before the block;
    when the wrapped operation raises, the exception goes on to the caller
    and the stream stays as the operation left it. *)
Theorem preserve_stream_pos_restores_on_return {A}
    (body : Stream -> Stream * result A) (s : Stream) :
  (forall s2 v,
     body (snd (Stream.tell s)) = (s2, Return v) ->
     preserve_stream_pos body s = (Stream.seek (Stream.pos s) s2, Return v) /\
     Stream.pos (fst (preserve_stream_pos body s)) = Stream.pos s) /\
  (forall s2 e,
     body (snd (Stream.tell s)) = (s2, Raise e) ->
     preserve_stream_pos body s = (s2, Raise e)).
Proof.
  unfold preserve_stream_pos. simpl.
  split.
  - intros s2 v H. rewrite H. split; reflexivity.
  - intros s2 e H. rewrite H. reflexivity.
Qed.

Lemma preserve_stream_pos_restores_on_return_witness :
  Stream.pos (fst (preserve_stream_pos (seek_then_return 5) (Stream.of_bytes [x01; x02]))) = 0%nat /\
  preserve_stream_pos (seek_then_fail 5) (Stream.of_bytes [x01; x02]) =
    (Stream.seek 5 (snd (Stream.tell (Stream.of_bytes [x01; x02]))),
     Raise (ELFParseError "truncated")).
Proof.
  destruct (preserve_stream_pos_restores_on_return
              (seek_then_return 5) (Stream.of_bytes [x01; x02])) as [Hret _].
  destruct (preserve_stream_pos_restores_on_return
              (seek_then_fail 5) (Stream.of_bytes [x01; x02])) as [_ Hraise].
  split.
  - exact (proj2 (Hret _ tt eq_refl)).
  - exact (Hraise _ _ eq_refl).
Defined.

(** C4. The code breaks the claim on the exception path: the generator has
    no [try]/[finally] around its [yield], so for an operation that moves
    the stream to offset 5 and then raises, the stream is left at 5 and not
    at the position 0 it had before the block, against the docstring's
    "stream still has position FOO". *)
Lemma preserve_stream_pos_not_restored_on_raise :
  Stream.pos (fst (preserve_stream_pos (seek_then_fail 5) (Stream.of_bytes [x01; x02])))
  <> Stream.pos (Stream.of_bytes [x01; x02]).
Proof. vm_compute. discriminate. Qed.

(** ** [lazy] *)

Section LazyFacts.

Context {V : Type}.

Lemma decorate_decorated (class_name : string) (cls : gmap string (lazy V))
    (getter : function V) :
  mangle class_name (__name__ getter) = __name__ getter ->
  decorated cls -> decorated (decorate class_name cls getter).
Proof.
  intros Hname Hcls name descr. unfold decorate. rewrite Hname.
  destruct (decide (__name__ getter = name)) as [<- | Hne].
  - rewrite lookup_insert_eq. intros [= <-]. reflexivity.
  - rewrite lookup_insert_ne by exact Hne. apply Hcls.
Qed.

Lemma class_of_decorated (class_name : string) (getters : list (function V)) :
  Forall (fun g => mangle class_name (__name__ g) = __name__ g) getters ->
  decorated (class_of class_name getters).
Proof.
  unfold class_of. intros Hnames.
  assert (Hgen : forall cls, decorated cls ->
                             decorated (foldl (decorate class_name) cls getters)).
  { induction Hnames as [| g gs Hg _ IH]; intros cls Hcls; simpl; [exact Hcls |].
    apply IH, decorate_decorated; assumption. }
  apply Hgen. intros name descr H. rewrite lookup_empty in H. discriminate H.
Qed.

(** A stored value is there to stay. *)
Lemma getattr_keeps (cls : gmap string (lazy V)) (obj : object V)
    (name n : string) (v : V) :
  decorated cls ->
  __dict__ obj !! n = Some v ->
  __dict__ (fst (getattr cls obj name)) !! n = Some v.
Proof.
  intros Hcls Hn. unfold getattr.
  destruct (__dict__ obj !! name) as [w |] eqn:Hname; [exact Hn |].
  destruct (cls !! name) as [descr |] eqn:Hd; [| exact Hn].
  simpl. rewrite (Hcls _ _ Hd).
  rewrite lookup_insert_ne; [exact Hn | congruence].
Qed.

Lemma getattrs_keeps (cls : gmap string (lazy V)) (names : list string) :
  decorated cls ->
  forall (obj : object V) n v,
    __dict__ obj !! n = Some v ->
    __dict__ (getattrs cls obj names) !! n = Some v.
Proof.
  intros Hcls. unfold getattrs.
  induction names as [| name names IH]; intros obj n v Hn; simpl; [exact Hn |].
  apply IH, getattr_keeps; assumption.
Qed.

Lemma getattr_called_once (cls : gmap string (lazy V)) (obj : object V)
    (name : string) :
  decorated cls -> called_once obj -> called_once (fst (getattr cls obj name)).
Proof.
  intros Hcls [Hnd Hin]. unfold getattr.
  destruct (__dict__ obj !! name) as [w |] eqn:Hname; [split; assumption |].
  destruct (cls !! name) as [descr |] eqn:Hd; [| split; assumption].
  simpl. rewrite (Hcls _ _ Hd). split.
  - apply NoDup_cons. split; [| exact Hnd].
    intros Hc. apply Hin in Hc. rewrite Hname in Hc. destruct Hc. discriminate.
  - intros n Hn. simpl. apply elem_of_cons in Hn. destruct Hn as [-> | Hn].
    + rewrite lookup_insert_eq. eauto.
    + destruct (decide (name = n)) as [-> | Hne].
      * rewrite lookup_insert_eq. eauto.
      * rewrite lookup_insert_ne by exact Hne. apply Hin, Hn.
Qed.

Lemma getattrs_called_once (cls : gmap string (lazy V)) (names : list string) :
  decorated cls ->
  forall obj : object V, called_once obj -> called_once (getattrs cls obj names).
Proof.
  intros Hcls. unfold getattrs.
  induction names as [| name names IH]; intros obj Hobj; simpl; [exact Hobj |].
  apply IH, getattr_called_once; assumption.
Qed.

(** In a class whose attributes are made by the decorator from functions
    whose names the class body does not mangle: the first read of an
    attribute on an instance calls the function, stores its value in the
    instance and returns it; every later read on that instance, whatever
    was read in between, returns the stored value and calls nothing; so
    over any sequence of reads on a new instance each function is called at
    most once. *)
Lemma lazy_evaluated_once (class_name : string) (getters : list (function V)) :
  Forall (fun g => mangle class_name (__name__ g) = __name__ g) getters ->
  (forall (obj : object V) name descr,
     class_of class_name getters !! name = Some descr ->
     __dict__ obj !! name = None ->
     exists obj',
       getattr (class_of class_name getters) obj name
         = (obj', Some (__call__ (_getter descr) (__dict__ obj))) /\
       __dict__ obj' !! name = Some (__call__ (_getter descr) (__dict__ obj)) /\
       calls obj' = name :: calls obj /\
       forall names,
         getattr (class_of class_name getters)
           (getattrs (class_of class_name getters) obj' names) name
           = (getattrs (class_of class_name getters) obj' names,
              Some (__call__ (_getter descr) (__dict__ obj)))) /\
  (forall (d : gmap string V) names,
     NoDup (calls (getattrs (class_of class_name getters)
                     {| __dict__ := d; calls := [] |} names))).
Proof.
  intros Hnames.
  pose proof (class_of_decorated class_name getters Hnames) as Hcls.
  split.
  - intros obj name descr Hd Hname.
    pose proof (Hcls _ _ Hd) as Hnm.
    eexists. split; [| split; [| split]].
    + unfold getattr. rewrite Hname, Hd. unfold lazy__get__. reflexivity.
    + simpl. rewrite Hnm. apply lookup_insert_eq.
    + simpl. rewrite Hnm. reflexivity.
    + intros names. unfold getattr at 1.
      erewrite getattrs_keeps; [reflexivity | exact Hcls |].
      simpl. rewrite Hnm. apply lookup_insert_eq.
  - intros d names.
    apply (getattrs_called_once _ names Hcls).
    split; simpl; [apply NoDup_nil_2 |].
    intros n Hn. apply elem_of_nil in Hn. destruct Hn.
Qed.

(** C7. The code breaks the claim for a function whose name the class body
    mangles. In the class [class_name] that the decorator makes from such a
    function, the descriptor sits under the mangled name, [__get__] stores
    the value under the name as written, and so every read of the attribute
    calls the function again: [n] reads make [n] calls. *)
Theorem lazy_private_name_recomputes (class_name : string)
    (getter : function V) (n : nat) :
  mangle class_name (__name__ getter) <> __name__ getter ->
  class_of class_name [getter] !! mangle class_name (__name__ getter)
    = Some (lazy__init__ getter) /\
  forall obj : object V,
    __dict__ obj !! mangle class_name (__name__ getter) = None ->
    calls (getattrs (class_of class_name [getter]) obj
             (repeat (mangle class_name (__name__ getter)) n))
      = repeat (__name__ getter) n ++ calls obj.
Proof.
  intros Hne.
  assert (Hd : class_of class_name [getter] !! mangle class_name (__name__ getter)
               = Some (lazy__init__ getter)).
  { unfold class_of, decorate. simpl. apply lookup_insert_eq. }
  split; [exact Hd |].
  unfold getattrs.
  induction n as [| n IH]; intros obj Hmiss; [reflexivity |].
  cbn [repeat foldl]. unfold getattr at 2. rewrite Hmiss, Hd. simpl.
  rewrite IH.
  - simpl. rewrite app_comm_cons, repeat_cons, <- app_assoc. reflexivity.
  - simpl. rewrite lookup_insert_ne by congruence. exact Hmiss.
Qed.

End LazyFacts.

(** ** [parse_cstring_from_stream] *)

Section CString.

Local Open Scope nat_scope.

Lemma cstring_of_length (l bs : list byte) :
  cstring_of l = Some bs -> length bs < length l.
Proof.
  revert bs. induction l as [| b l IH]; intros bs H; simpl in *; [discriminate |].
  destruct (Byte.eqb b x00).
  - injection H as <-. simpl. lia.
  - destruct (cstring_of l) as [bs' |]; simpl in H; [| discriminate].
    injection H as <-. specialize (IH bs' eq_refl). simpl. lia.
Qed.

Lemma cstring_of_app_Some (l1 l2 bs : list byte) :
  cstring_of l1 = Some bs -> cstring_of (l1 ++ l2) = Some bs.
Proof.
  revert bs. induction l1 as [| b l1 IH]; intros bs H; simpl in *; [discriminate |].
  destruct (Byte.eqb b x00); [exact H |].
  destruct (cstring_of l1) as [bs' |]; simpl in H; [| discriminate].
  rewrite (IH bs' eq_refl). exact H.
Qed.

Lemma cstring_of_app_None (l1 l2 : list byte) :
  cstring_of l1 = None -> cstring_of (l1 ++ l2) = app l1 <$> cstring_of l2.
Proof.
  induction l1 as [| b l1 IH]; intros H; simpl in *.
  - destruct (cstring_of l2); reflexivity.
  - destruct (Byte.eqb b x00); [discriminate |].
    destruct (cstring_of l1) as [bs' |]; simpl in H; [discriminate |].
    rewrite (IH eq_refl). destruct (cstring_of l2); reflexivity.
Qed.

(** [find] agrees with [cstring_of]. *)
Lemma bytes_find_cstring_of (l : list byte) :
  match cstring_of l with
  | Some bs => bytes_find x00 l = Z.of_nat (length bs) /\ take (length bs) l = bs
  | None => bytes_find x00 l = (-1)%Z
  end.
Proof.
  induction l as [| b l IH]; simpl; [reflexivity |].
  destruct (Byte.eqb b x00); [split; reflexivity |].
  destruct (cstring_of l) as [bs |]; simpl.
  - destruct IH as [-> ->].
    destruct (Z.ltb_spec (Z.of_nat (length bs)) 0); [lia |].
    split; [lia | reflexivity].
  - rewrite IH. reflexivity.
Qed.

(** The terminator splits the bytes: [cstring_of] returns what is before
    the first null byte. *)
Lemma cstring_of_Some_iff (l bs : list byte) :
  cstring_of l = Some bs <->
  exists tail, l = bs ++ x00 :: tail /\ x00 ∉ bs.
Proof.
  split.
  - revert bs. induction l as [| b l IH]; intros bs H; simpl in H; [discriminate |].
    destruct (Byte.eqb b x00) eqn:Hb.
    + injection H as <-. apply Byte.byte_dec_bl in Hb. subst b.
      exists l. split; [reflexivity | apply not_elem_of_nil].
    + destruct (cstring_of l) as [bs' |]; simpl in H; [| discriminate].
      injection H as <-. destruct (IH bs' eq_refl) as (tail & -> & Hnot).
      exists tail. split; [reflexivity |].
      intros Hin. apply elem_of_cons in Hin. destruct Hin as [<- | Hin].
      * rewrite (Byte.byte_dec_lb eq_refl) in Hb. discriminate.
      * exact (Hnot Hin).
  - intros (tail & -> & Hnot). induction bs as [| b bs IH]; simpl; [reflexivity |].
    destruct (Byte.eqb b x00) eqn:Hb.
    + apply Byte.byte_dec_bl in Hb. subst b. exfalso. apply Hnot. left.
    + rewrite IH; [reflexivity |].
      intros Hin. apply Hnot. right. exact Hin.
Qed.

Lemma cstring_of_None_iff (l : list byte) :
  cstring_of l = None <-> x00 ∉ l.
Proof.
  induction l as [| b l IH]; simpl.
  - split; [intros _; apply not_elem_of_nil | reflexivity].
  - destruct (Byte.eqb b x00) eqn:Hb.
    + apply Byte.byte_dec_bl in Hb. subst b.
      split; [discriminate | intros H; exfalso; apply H; left].
    + destruct (cstring_of l) as [bs |]; simpl.
      * split; [discriminate |]. intros H. exfalso.
        assert (Hl : x00 ∉ l) by (intros Hin; apply H; right; exact Hin).
        apply IH in Hl. discriminate.
      * split; [| reflexivity]. intros _ Hin.
        apply elem_of_cons in Hin. destruct Hin as [<- | Hin].
        -- rewrite (Byte.byte_dec_lb eq_refl) in Hb. discriminate.
        -- apply (proj1 IH eq_refl), Hin.
Qed.

(** The loop: with enough fuel it ends; the stream's data is untouched;
    when the rest of the stream holds a null byte, the loop has found it,
    has added to [chunks] the bytes before it, and has read whole chunks,
    up to the one with the null byte or to the end of the data. *)
Lemma cstring_loop_spec (fuel : nat) :
  forall (s : Stream) (chunks : list (list byte)),
    length (Stream.rest s) < CHUNKSIZE * fuel ->
    exists s' chunks' found,
      cstring_loop fuel s chunks = Some (s', chunks', found) /\
      Stream.data s' = Stream.data s /\
      match cstring_of (Stream.rest s) with
      | Some bs =>
          found = true /\ concat chunks' = concat chunks ++ bs /\
          exists k, CHUNKSIZE * k <= length bs < CHUNKSIZE * (k + 1) /\
                    Stream.pos s' =
                      Nat.min (Stream.pos s + CHUNKSIZE * (k + 1))
                              (length (Stream.data s))
      | None => found = false
      end.
Proof.
  unfold CHUNKSIZE.
  induction fuel as [| fuel IH]; intros s chunks Hfuel; [lia |].
  unfold Stream.rest in *. simpl. unfold CHUNKSIZE.
  set (rest := drop (Stream.pos s) (Stream.data s)) in *.
  set (chunk := take 64 rest).
  assert (Hrest : rest = chunk ++ drop 64 rest) by (symmetry; apply take_drop).
  assert (Hlen : length chunk = Nat.min 64 (length rest)) by apply length_take.
  assert (Hrl : length rest = length (Stream.data s) - Stream.pos s)
    by apply length_drop.
  pose proof (bytes_find_cstring_of chunk) as Hfind.
  destruct (cstring_of chunk) as [bs |] eqn:Hchunk.
  - destruct Hfind as [Hfind Htake]. rewrite Hfind.
    destruct (Z.leb_spec 0 (Z.of_nat (length bs))); [| lia].
    rewrite Nat2Z.id, Htake.
    eexists _, _, _. split; [reflexivity |]. split; [reflexivity |].
    rewrite Hrest, (cstring_of_app_Some _ _ _ Hchunk).
    split; [reflexivity |]. split.
    + rewrite concat_app. simpl. rewrite app_nil_r. reflexivity.
    + apply cstring_of_length in Hchunk. exists 0. simpl. lia.
  - rewrite Hfind. simpl.
    destruct (Nat.ltb_spec (length chunk) 64) as [Hshort | Hfull].
    + eexists _, _, _. split; [reflexivity |]. split; [reflexivity |].
      assert (Hall : chunk = rest) by (apply take_ge; lia).
      rewrite <- Hall, Hchunk. reflexivity.
    + assert (Hc64 : length chunk = 64) by lia.
      set (s1 := Stream.mk (Stream.data s) (Stream.pos s + length chunk)
                   (Stream.Read 64 :: Stream.log s)).
      assert (Hrest1 : drop (Stream.pos s1) (Stream.data s1) = drop 64 rest).
      { subst s1. simpl. rewrite Hc64. unfold rest. rewrite drop_drop. reflexivity. }
      destruct (IH s1 (chunks ++ [chunk])) as (s' & chunks' & found & Hloop & Hdata & Hres).
      { rewrite Hrest1, length_drop. lia. }
      exists s', chunks', found. split; [exact Hloop |]. split; [exact Hdata |].
      rewrite Hrest1 in Hres.
      rewrite Hrest, (cstring_of_app_None _ _ Hchunk).
      destruct (cstring_of (drop 64 rest)) as [bs' |]; simpl; [| exact Hres].
      destruct Hres as (Hfound & Hconcat & k & Hk & Hpos).
      split; [exact Hfound |]. split.
      * rewrite Hconcat, concat_app. simpl. rewrite app_nil_r, app_assoc. reflexivity.
      * exists (S k). rewrite length_app, Hc64. split; [lia |].
        rewrite Hpos. subst s1. simpl. lia.
Qed.

End CString.

(** C6. With fuel for the loop, [parse_cstring_from_stream] returns, and
    what it returns is decided by the bytes [rest] from the start position
    on: the bytes before the first null byte, without it, when there is one,
    wherever it falls (so also as the last byte of a chunk or the first of
    the next); the empty byte sequence, which is not [None], when the first
    byte is null; [None] when there is no null byte. *)
Theorem parse_cstring_boundary_cases (fuel : nat) (s : Stream) (sp : option nat) :
  (length (Stream.data s) < fuel)%nat ->
  exists s' r,
    parse_cstring_from_stream fuel s sp = Some (s', r) /\
    (forall bs tail,
       drop (default (Stream.pos s) sp) (Stream.data s) = bs ++ x00 :: tail ->
       x00 ∉ bs -> r = Some bs) /\
    (forall tail,
       drop (default (Stream.pos s) sp) (Stream.data s) = x00 :: tail ->
       r = Some [] /\ r <> None) /\
    (x00 ∉ drop (default (Stream.pos s) sp) (Stream.data s) ->
       r = None /\ r <> Some []) /\
    (forall k bs tail,
       drop (default (Stream.pos s) sp) (Stream.data s) = bs ++ x00 :: tail ->
       x00 ∉ bs ->
       (length bs + 1 = CHUNKSIZE * k \/ length bs = CHUNKSIZE * k)%nat ->
       r = Some bs).
Proof.
  intros Hfuel.
  set (s0 := match sp with Some p => Stream.seek p s | None => s end).
  assert (Hrest : Stream.rest s0 = drop (default (Stream.pos s) sp) (Stream.data s))
    by (destruct sp; reflexivity).
  assert (Hdata : Stream.data s0 = Stream.data s) by (destruct sp; reflexivity).
  destruct (cstring_loop_spec fuel s0 [])
    as (s' & chunks' & found & Hloop & _ & Hres).
  { unfold Stream.rest. rewrite length_drop, Hdata. unfold CHUNKSIZE. lia. }
  assert (Hparse : parse_cstring_from_stream fuel s sp
                   = Some (s', cstring_of (Stream.rest s0))).
  { unfold parse_cstring_from_stream. fold s0. rewrite Hloop.
    destruct (cstring_of (Stream.rest s0)) as [bs |].
    - destruct Hres as (-> & -> & _). reflexivity.
    - rewrite Hres. reflexivity. }
  rewrite Hrest in Hparse.
  exists s', (cstring_of (drop (default (Stream.pos s) sp) (Stream.data s))).
  split; [exact Hparse |].
  assert (Hbefore : forall bs tail,
             drop (default (Stream.pos s) sp) (Stream.data s) = bs ++ x00 :: tail ->
             x00 ∉ bs ->
             cstring_of (drop (default (Stream.pos s) sp) (Stream.data s)) = Some bs).
  { intros bs tail Heq Hnot. apply cstring_of_Some_iff. exists tail. split; assumption. }
  split; [exact Hbefore |]. split; [| split].
  - intros tail Heq. rewrite (Hbefore [] tail Heq (not_elem_of_nil _)).
    split; [reflexivity | discriminate].
  - intros Hnot. apply cstring_of_None_iff in Hnot. rewrite Hnot.
    split; [reflexivity | discriminate].
  - intros k bs tail Heq Hnot _. exact (Hbefore bs tail Heq Hnot).
Qed.

(** C10, as the code has it. With fuel for the loop, when the bytes from the
    start position on hold a null byte, after [bs] bytes, the scanner
    returns [bs] and leaves the stream at the end of the last chunk it read:
    [k + 1] chunks of 64 bytes after the start when the null byte lies in
    chunk [k], or the end of the data when that comes first. This position
    is at or after the byte that follows the null byte, and it is that byte
    exactly when the null byte is the last byte of its chunk or of the
    data. *)
Theorem parse_cstring_final_position (fuel : nat) (s : Stream)
    (sp : option nat) (bs : list byte) :
  (length (Stream.data s) < fuel)%nat ->
  cstring_of (drop (default (Stream.pos s) sp) (Stream.data s)) = Some bs ->
  exists s' k,
    parse_cstring_from_stream fuel s sp = Some (s', Some bs) /\
    (CHUNKSIZE * k <= length bs < CHUNKSIZE * (k + 1))%nat /\
    Stream.pos s' =
      Nat.min (default (Stream.pos s) sp + CHUNKSIZE * (k + 1))
              (length (Stream.data s)) /\
    (default (Stream.pos s) sp + length bs + 1 <= Stream.pos s')%nat /\
    (Stream.pos s' = (default (Stream.pos s) sp + length bs + 1)%nat <->
     (length bs + 1 = CHUNKSIZE * (k + 1) \/
      default (Stream.pos s) sp + length bs + 1 = length (Stream.data s))%nat).
Proof.
  intros Hfuel Hbs.
  set (s0 := match sp with Some p => Stream.seek p s | None => s end).
  assert (Hrest : Stream.rest s0 = drop (default (Stream.pos s) sp) (Stream.data s))
    by (destruct sp; reflexivity).
  assert (Hdata : Stream.data s0 = Stream.data s) by (destruct sp; reflexivity).
  assert (Hpos : Stream.pos s0 = default (Stream.pos s) sp) by (destruct sp; reflexivity).
  destruct (cstring_loop_spec fuel s0 [])
    as (s' & chunks' & found & Hloop & _ & Hres).
  { unfold Stream.rest. rewrite length_drop, Hdata. unfold CHUNKSIZE. lia. }
  rewrite Hrest, Hbs, Hpos, Hdata in Hres.
  destruct Hres as (-> & Hconcat & k & Hk & Hfinal).
  exists s', k. split.
  { unfold parse_cstring_from_stream. fold s0. rewrite Hloop, Hconcat. reflexivity. }
  split; [exact Hk |]. split; [exact Hfinal |].
  apply cstring_of_length in Hbs. rewrite length_drop in Hbs.
  unfold CHUNKSIZE in *. lia.
Qed.

(** ** The abbreviation table *)

Section AbbrevTableFacts.

Context {Container : Type}.
Variable structs : DWARFStructs Container.

Local Open Scope nat_scope.

Implicit Types (t : AbbrevTable Container) (s : Stream) (code : Z)
  (d : AbbrevDecl Container) (m : gmap Z (AbbrevDecl Container)).

(** *** One step of the parser *)

Lemma parser_entry s off d next_offset :
  entry_at structs (Stream.data s) off = Some (d, next_offset) ->
  _abbrev_table_parser structs s off =
    (Stream.mk (Stream.data s) next_offset
       (entry_accesses structs (Stream.data s) off ++ Stream.log s),
     GenSuspended next_offset, Return (Some d)).
Proof.
  unfold entry_at, entry_accesses, _abbrev_table_parser, struct_parse,
    parse_stream. simpl.
  destruct (_parse (Dwarf_uleb128 structs EmptyString) (Stream.data s) off)
    as [[tr1 p1] [c | e]]; [| discriminate].
  destruct (Z.eqb_spec c 0); [discriminate |]. simpl.
  destruct (_parse (Dwarf_abbrev_declaration structs) (Stream.data s) p1)
    as [[tr2 p2] [b | e]]; [| discriminate].
  intros [= <- <-]. simpl.
  rewrite <- !app_assoc. reflexivity.
Qed.

Lemma parser_terminator s off :
  terminator_at structs (Stream.data s) off ->
  exists s', _abbrev_table_parser structs s off = (s', GenFinished, Return None) /\
             Stream.data s' = Stream.data s.
Proof.
  intros (tr & p & H).
  unfold _abbrev_table_parser, struct_parse, parse_stream. simpl.
  rewrite H. simpl. eexists. split; reflexivity.
Qed.

(** The parser yields only declarations with a non-zero code, suspended;
    it never touches the data. *)
Lemma parser_yield s off s' g d :
  _abbrev_table_parser structs s off = (s', g, Return (Some d)) ->
  AbbrevDecl.code d <> 0%Z /\ g = GenSuspended (Stream.pos s') /\
  entry_at structs (Stream.data s) off = Some (d, Stream.pos s') /\
  Stream.data s' = Stream.data s.
Proof.
  unfold entry_at, _abbrev_table_parser, struct_parse, parse_stream. simpl.
  destruct (_parse (Dwarf_uleb128 structs EmptyString) (Stream.data s) off)
    as [[tr1 p1] [c | e]]; [| destruct e; discriminate].
  destruct (Z.eqb_spec c 0); [discriminate |]. simpl.
  destruct (_parse (Dwarf_abbrev_declaration structs) (Stream.data s) p1)
    as [[tr2 p2] [b | e]]; [| destruct e; discriminate].
  intros [= <- <- <-]. simpl. repeat split. exact n.
Qed.

Lemma parser_stop s off s' g :
  _abbrev_table_parser structs s off = (s', g, Return None) ->
  g = GenFinished /\ terminator_at structs (Stream.data s) off /\
  Stream.data s' = Stream.data s.
Proof.
  unfold terminator_at, _abbrev_table_parser, struct_parse, parse_stream. simpl.
  destruct (_parse (Dwarf_uleb128 structs EmptyString) (Stream.data s) off)
    as [[tr1 p1] [c | e]]; [| destruct e; discriminate].
  destruct (Z.eqb_spec c 0) as [-> |]; simpl.
  - intros [= <- <-]. repeat split. eauto.
  - destruct (_parse (Dwarf_abbrev_declaration structs) (Stream.data s) p1)
      as [[tr2 p2] [b | e]]; [discriminate | destruct e; discriminate].
Qed.

Lemma parser_raise s off s' g e :
  _abbrev_table_parser structs s off = (s', g, Raise e) ->
  g = GenFinished /\ Stream.data s' = Stream.data s.
Proof.
  unfold _abbrev_table_parser, struct_parse, parse_stream. simpl.
  destruct (_parse (Dwarf_uleb128 structs EmptyString) (Stream.data s) off)
    as [[tr1 p1] [c | e1]].
  - destruct (Z.eqb_spec c 0); simpl; [discriminate |].
    destruct (_parse (Dwarf_abbrev_declaration structs) (Stream.data s) p1)
      as [[tr2 p2] [b | e2]]; [discriminate |].
    destruct e2; intros [= <- <- <-]; split; reflexivity.
  - destruct e1; intros [= <- <- <-]; split; reflexivity.
Qed.

(** *** The cache *)

Lemma get_abbrev_hit fuel t s code d :
  _abbrev_map t !! code = Some d ->
  get_abbrev structs fuel t s code = Some (s, t, Return d).
Proof. intros H. unfold get_abbrev. rewrite H. reflexivity. Qed.

(** The loop and the parser look at the table only through its cursor. *)
Lemma next_cursor t s c :
  cursor t = Some c -> next structs t s = _abbrev_table_parser structs s c.
Proof.
  unfold cursor, next. destruct (_parser_state t); intros [= <-]; reflexivity.
Qed.

Lemma get_abbrev_finished fuel t s code :
  _parser_state t = GenFinished ->
  _abbrev_map t !! code = None ->
  get_abbrev structs (S fuel) t s code = Some (s, t, Raise (KeyError code)).
Proof.
  intros Hfin Hmiss. unfold get_abbrev. rewrite Hmiss. simpl.
  unfold next. rewrite Hfin. destruct t; simpl in *. subst. reflexivity.
Qed.

(** A call that returns a declaration leaves it in the cache under the
    requested code. *)
Lemma get_abbrev_loop_cached fuel :
  forall t s code s' t' d,
    get_abbrev_loop structs fuel t s code = Some (s', t', Return d) ->
    _abbrev_map t' !! code = Some d.
Proof.
  induction fuel as [| fuel IH]; intros t s code s' t' d H; simpl in H;
    [discriminate |].
  destruct (next structs t s) as [[s1 g] [[d1 |] | e]]; try discriminate.
  destruct (Z.eqb_spec (AbbrevDecl.code d1) code) as [Heq | Hne].
  - injection H as <- <- <-. simpl. rewrite Heq. apply lookup_insert_eq.
  - eapply IH, H.
Qed.

Lemma get_abbrev_cached fuel t s code s' t' d :
  get_abbrev structs fuel t s code = Some (s', t', Return d) ->
  _abbrev_map t' !! code = Some d.
Proof.
  unfold get_abbrev. destruct (_abbrev_map t !! code) as [d0 |] eqn:Hhit.
  - intros [= <- <- <-]. exact Hhit.
  - apply get_abbrev_loop_cached.
Qed.

(** Codes are never removed from the cache, and code 0 never enters. *)
Lemma get_abbrev_loop_cache fuel :
  forall t s code s' t' r,
    get_abbrev_loop structs fuel t s code = Some (s', t', r) ->
    (forall k, is_Some (_abbrev_map t !! k) -> is_Some (_abbrev_map t' !! k)) /\
    (_abbrev_map t !! 0%Z = None -> _abbrev_map t' !! 0%Z = None).
Proof.
  induction fuel as [| fuel IH]; intros t s code s' t' r H; simpl in H;
    [discriminate |].
  destruct (next structs t s) as [[s1 g] [[d1 |] | e]] eqn:Hnext.
  - assert (Hcode : AbbrevDecl.code d1 <> 0%Z).
    { unfold next in Hnext. destruct (_parser_state t);
        [apply parser_yield in Hnext; tauto
        | apply parser_yield in Hnext; tauto | discriminate]. }
    assert (Hstep :
      (forall k, is_Some (_abbrev_map t !! k) ->
                 is_Some (<[AbbrevDecl.code d1 := d1]> (_abbrev_map t) !! k)) /\
      (_abbrev_map t !! 0%Z = None ->
       <[AbbrevDecl.code d1 := d1]> (_abbrev_map t) !! 0%Z = None)).
    { split.
      - intros k Hk. destruct (decide (AbbrevDecl.code d1 = k)) as [-> | Hne].
        + rewrite lookup_insert_eq. eauto.
        + rewrite lookup_insert_ne by exact Hne. exact Hk.
      - intros H0. rewrite lookup_insert_ne by exact Hcode. exact H0. }
    destruct (AbbrevDecl.code d1 =? code)%Z.
    + injection H as <- <- <-. exact Hstep.
    + apply IH in H. simpl in H. destruct H as [Hk H0], Hstep as [Hk1 H01].
      split; [intros k Hin; apply Hk, Hk1, Hin | intros Hz; apply H0, H01, Hz].
  - injection H as <- <- <-. simpl. tauto.
  - injection H as <- <- <-. simpl. tauto.
Qed.

Lemma get_abbrev_cache fuel t s code s' t' r :
  get_abbrev structs fuel t s code = Some (s', t', r) ->
  (forall k, is_Some (_abbrev_map t !! k) -> is_Some (_abbrev_map t' !! k)) /\
  (_abbrev_map t !! 0%Z = None -> _abbrev_map t' !! 0%Z = None).
Proof.
  unfold get_abbrev. destruct (_abbrev_map t !! code) as [d0 |].
  - intros [= <- <- <-]. tauto.
  - apply get_abbrev_loop_cache.
Qed.

Lemma evolves_cache t t' :
  evolves structs t t' ->
  (forall k, is_Some (_abbrev_map t !! k) -> is_Some (_abbrev_map t' !! k)) /\
  (_abbrev_map t !! 0%Z = None -> _abbrev_map t' !! 0%Z = None).
Proof.
  induction 1 as [t | t fuel s code s' t' r t'' Hcall _ IH]; [tauto |].
  apply get_abbrev_cache in Hcall. destruct Hcall as [Hk H0], IH as [Hk' H0'].
  split; [intros k Hin; apply Hk', Hk, Hin | intros Hz; apply H0', H0, Hz].
Qed.

Lemma reachable_no_zero t :
  reachable structs t -> _abbrev_map t !! 0%Z = None.
Proof.
  intros [off H]. apply evolves_cache in H. apply H. apply lookup_empty.
Qed.

End AbbrevTableFacts.

Section AbbrevTableScan.

Context {Container : Type}.
Variable structs : DWARFStructs Container.

Local Open Scope nat_scope.

Implicit Types (t : AbbrevTable Container) (s : Stream) (code : Z)
  (d : AbbrevDecl Container) (m : gmap Z (AbbrevDecl Container)).

(** *** The loop over the entries *)

(** An iteration that decodes an entry. *)
Lemma get_abbrev_loop_entry fuel t s code c d next_offset :
  cursor t = Some c ->
  entry_at structs (Stream.data s) c = Some (d, next_offset) ->
  get_abbrev_loop structs (S fuel) t s code =
    let s1 := Stream.mk (Stream.data s) next_offset
                (entry_accesses structs (Stream.data s) c ++ Stream.log s) in
    let t1 := {| offset := offset t; _parser_state := GenSuspended next_offset;
                 _abbrev_map := <[AbbrevDecl.code d := d]> (_abbrev_map t) |} in
    if (AbbrevDecl.code d =? code)%Z then Some (s1, t1, Return d)
    else get_abbrev_loop structs fuel t1 s1 code.
Proof.
  intros Hc He. simpl.
  rewrite (next_cursor structs t s c Hc), (parser_entry structs s c d _ He).
  reflexivity.
Qed.

(** An iteration that decodes the terminator. *)
Lemma get_abbrev_loop_terminator fuel t s code c :
  cursor t = Some c ->
  terminator_at structs (Stream.data s) c ->
  exists s',
    get_abbrev_loop structs (S fuel) t s code =
      Some (s',
            {| offset := offset t; _parser_state := GenFinished;
               _abbrev_map := _abbrev_map t |},
            Raise (KeyError code)).
Proof.
  intros Hc Ht. simpl. rewrite (next_cursor structs t s c Hc).
  destruct (parser_terminator structs s c Ht) as (s' & -> & _).
  exists s'. reflexivity.
Qed.

Lemma entry_at_code data off d next_offset :
  entry_at structs data off = Some (d, next_offset) -> AbbrevDecl.code d <> 0%Z.
Proof.
  unfold entry_at.
  destruct (_parse (Dwarf_uleb128 structs EmptyString) data off)
    as [[tr1 p1] [c | e]]; [| discriminate].
  destruct (Z.eqb_spec c 0); [discriminate |].
  destruct (_parse (Dwarf_abbrev_declaration structs) data p1)
    as [[tr2 p2] [b | e]]; [| discriminate].
  intros [= <- _]. exact n.
Qed.

Lemma entries_at_codes data es : forall off off',
  entries_at structs data off es off' ->
  Forall (fun d => AbbrevDecl.code d <> 0%Z) es.
Proof.
  induction es as [| d es IH]; intros off off' H; [constructor |].
  destruct H as (nxt & He & Hes). constructor.
  - exact (entry_at_code _ _ _ _ He).
  - exact (IH _ _ Hes).
Qed.

(** Passing over entries with other codes: they are stored, and the loop
    goes on from the cursor after them. *)
Lemma get_abbrev_loop_skip code es :
  forall t s c off',
    cursor t = Some c ->
    entries_at structs (Stream.data s) c es off' ->
    Forall (fun d => AbbrevDecl.code d <> code) es ->
    exists s1 t1,
      Stream.data s1 = Stream.data s /\
      cursor t1 = Some off' /\
      offset t1 = offset t /\
      _abbrev_map t1 = cache_with es (_abbrev_map t) /\
      forall fuel,
        get_abbrev_loop structs (length es + fuel) t s code =
        get_abbrev_loop structs fuel t1 s1 code.
Proof.
  induction es as [| d es IH]; intros t s c off' Hc Hes Hne.
  - simpl in Hes. subst off'. exists s, t. repeat split; assumption.
  - destruct Hes as (nxt & He & Hes). inversion Hne as [| ? ? Hd Hne']; subst.
    edestruct (IH
      {| offset := offset t; _parser_state := GenSuspended nxt;
         _abbrev_map := <[AbbrevDecl.code d := d]> (_abbrev_map t) |}
      (Stream.mk (Stream.data s) nxt
         (entry_accesses structs (Stream.data s) c ++ Stream.log s))
      nxt off') as (s1 & t1 & Hdata & Hcur & Hoff & Hmap & Hloop);
      [reflexivity | exact Hes | exact Hne' |].
    exists s1, t1. repeat split; try assumption.
    intros fuel. cbn [length Nat.add].
    rewrite (get_abbrev_loop_entry _ _ _ _ _ _ _ Hc He). cbn zeta.
    destruct (Z.eqb_spec (AbbrevDecl.code d) code); [contradiction |].
    apply Hloop.
Qed.

(** More fuel does not change a result. *)
Lemma get_abbrev_loop_fuel fuel :
  forall t s code r fuel',
    get_abbrev_loop structs fuel t s code = Some r ->
    fuel <= fuel' ->
    get_abbrev_loop structs fuel' t s code = Some r.
Proof.
  induction fuel as [| fuel IH]; intros t s code r fuel' H Hle; simpl in H;
    [discriminate |].
  destruct fuel' as [| fuel']; [lia |]. simpl.
  destruct (next structs t s) as [[s1 g] [[d1 |] | e]]; try exact H.
  destruct (AbbrevDecl.code d1 =? code)%Z; [exact H |].
  apply (IH _ _ _ _ _ H). lia.
Qed.

(** Once the parser has finished the table does not change any more. *)
Lemma get_abbrev_finished_stable fuel t s code s' t' r :
  _parser_state t = GenFinished ->
  get_abbrev structs fuel t s code = Some (s', t', r) ->
  s' = s /\ t' = t.
Proof.
  intros Hfin. unfold get_abbrev.
  destruct (_abbrev_map t !! code) as [d0 |]; [intros [= <- <- <-]; tauto |].
  destruct fuel as [| fuel]; simpl; [discriminate |].
  unfold next. rewrite Hfin. intros [= <- <- <-].
  destruct t; simpl in *; subst; tauto.
Qed.

Lemma evolves_finished t t' :
  evolves structs t t' -> _parser_state t = GenFinished -> t' = t.
Proof.
  induction 1 as [t | t fuel s code s' t' r t'' Hcall _ IH]; intros Hfin;
    [reflexivity |].
  destruct (get_abbrev_finished_stable _ _ _ _ _ _ _ Hfin Hcall) as [_ ->].
  exact (IH Hfin).
Qed.

(** *** Termination *)

(** Over well-behaved layouts every pass of the loop moves the cursor
    towards the end of the data, so the loop ends: with a declaration of
    the requested code, or with the parser finished and [KeyError] or
    [ELFParseError] raised. *)
Lemma get_abbrev_loop_total (Hwb : well_behaved structs) fuel :
  forall t s code c,
    cursor t = Some c ->
    length (Stream.data s) - c < fuel ->
    exists s' t' r,
      get_abbrev_loop structs fuel t s code = Some (s', t', r) /\
      match r with
      | Return d => AbbrevDecl.code d = code
      | Raise e =>
          _parser_state t' = GenFinished /\
          (e = KeyError code \/ exists msg, e = ELFParseError msg)
      end.
Proof.
  induction fuel as [| fuel IH]; intros t s code c Hc Hfuel; [lia |].
  simpl. rewrite (next_cursor structs t s c Hc).
  destruct (_abbrev_table_parser structs s c) as [[s1 g] [[d1 |] | e]] eqn:Hp.
  - destruct (parser_yield structs _ _ _ _ _ Hp) as (_ & -> & He & Hdata).
    destruct (Z.eqb_spec (AbbrevDecl.code d1) code) as [Heq | Hne].
    + eexists _, _, _. split; [reflexivity | exact Heq].
    + apply IH with (c := Stream.pos s1); [reflexivity |].
      rewrite Hdata. unfold entry_at in He.
      destruct (_parse (Dwarf_uleb128 structs EmptyString) (Stream.data s) c)
        as [[tr1 p1] [v | e]] eqn:H1; [| discriminate].
      destruct (v =? 0)%Z; [discriminate |].
      destruct (_parse (Dwarf_abbrev_declaration structs) (Stream.data s) p1)
        as [[tr2 p2] [b | e]] eqn:H2; [| discriminate].
      injection He as _ <-.
      apply (uleb128_advances structs Hwb) in H1.
      apply (declaration_advances structs Hwb) in H2. lia.
  - destruct (parser_stop structs _ _ _ _ Hp) as (-> & _ & _).
    eexists _, _, _. split; [reflexivity |]. simpl. split; [reflexivity | left; reflexivity].
  - destruct (parser_raise structs _ _ _ _ _ Hp) as (-> & _).
    eexists _, _, _. split; [reflexivity |]. simpl. split; [reflexivity |].
    right. revert Hp.
    unfold _abbrev_table_parser, struct_parse, parse_stream. simpl.
    destruct (_parse (Dwarf_uleb128 structs EmptyString) (Stream.data s) c)
      as [[tr1 p1] [v | e1]] eqn:H1.
    + destruct (v =? 0)%Z; [discriminate |]. simpl.
      destruct (_parse (Dwarf_abbrev_declaration structs) (Stream.data s) p1)
        as [[tr2 p2] [b | e2]] eqn:H2; [discriminate |].
      apply (declaration_raises structs Hwb) in H2.
      destruct e2; try discriminate H2. intros [= _ <-]. eauto.
    + apply (uleb128_raises structs Hwb) in H1.
      destruct e1; try discriminate H1. intros [= _ <-]. eauto.
Qed.

(** A scan that passes over entries with other codes up to the terminator
    stores them, finishes the parser and raises [KeyError]. *)
Lemma get_abbrev_to_terminator fuel t s code c es off' :
  _abbrev_map t !! code = None ->
  cursor t = Some c ->
  entries_at structs (Stream.data s) c es off' ->
  terminator_at structs (Stream.data s) off' ->
  Forall (fun d => AbbrevDecl.code d <> code) es ->
  length es < fuel ->
  exists s' t',
    get_abbrev structs fuel t s code = Some (s', t', Raise (KeyError code)) /\
    _parser_state t' = GenFinished /\
    _abbrev_map t' = cache_with es (_abbrev_map t).
Proof.
  intros Hmiss Hc Hes Hterm Hne Hfuel.
  destruct (get_abbrev_loop_skip code es t s c off' Hc Hes Hne)
    as (s1 & t1 & Hdata & Hcur & Hoff & Hmap & Hloop).
  rewrite <- Hdata in Hterm.
  destruct (get_abbrev_loop_terminator 0 t1 s1 code off' Hcur Hterm)
    as (s' & Hlast).
  exists s'. eexists. split.
  { unfold get_abbrev. rewrite Hmiss.
    apply (get_abbrev_loop_fuel (length es + 1)); [| lia].
    rewrite Hloop. exact Hlast. }
  split; [reflexivity | exact Hmap].
Qed.

End AbbrevTableScan.

Section AbbrevTableClaims.

Context {Container : Type}.
Variable structs : DWARFStructs Container.

Implicit Types (t : AbbrevTable Container) (s : Stream) (code : Z)
  (d : AbbrevDecl Container) (m : gmap Z (AbbrevDecl Container)).

(** C1. A table with the entries of codes 3, 1 and 7, in this order, from
    its start offset. On a new table, [get_abbrev 7] returns the declaration
    of code 7. The accesses it makes to the stream are those of decoding the
    three entries, each one once: the first at the start offset, each later
    one at the cursor kept after the entry before it. It leaves the cursor
    after the entry of code 7 and the three declarations in the cache.
    After it, [get_abbrev 3] and [get_abbrev 1] return the declarations of
    codes 3 and 1 and leave stream and table as they are. The cursor is
    kept between calls too: when the first call is [get_abbrev 3], it leaves
    the cursor after the entry of code 3, and a later [get_abbrev 7], on
    the stream wherever it is by then, decodes the entries of codes 1 and 7
    from that cursor and nothing at the start offset, and ends with the same
    table. *)
Theorem get_abbrev_resumable (s : Stream) (off o1 o2 o3 : nat)
    (b3 b1 b7 : Container) (fuel : nat) :
  entry_at structs (Stream.data s) off = Some (AbbrevDecl.mk 3 b3, o1) ->
  entry_at structs (Stream.data s) o1 = Some (AbbrevDecl.mk 1 b1, o2) ->
  entry_at structs (Stream.data s) o2 = Some (AbbrevDecl.mk 7 b7, o3) ->
  (3 <= fuel)%nat ->
  exists t1 t',
    get_abbrev structs fuel (AbbrevTable__init__ off) s 7
      = Some (Stream.mk (Stream.data s) o3
                (entry_accesses structs (Stream.data s) o2 ++
                 entry_accesses structs (Stream.data s) o1 ++
                 entry_accesses structs (Stream.data s) off ++ Stream.log s),
              t', Return (AbbrevDecl.mk 7 b7)) /\
    _parser_state t' = GenSuspended o3 /\
    _abbrev_map t' =
      <[7 := AbbrevDecl.mk 7 b7]>
        (<[1 := AbbrevDecl.mk 1 b1]> (<[3 := AbbrevDecl.mk 3 b3]> ∅)) /\
    (forall fuel2 s2,
       get_abbrev structs fuel2 t' s2 3 = Some (s2, t', Return (AbbrevDecl.mk 3 b3)) /\
       get_abbrev structs fuel2 t' s2 1 = Some (s2, t', Return (AbbrevDecl.mk 1 b1))) /\
    get_abbrev structs fuel (AbbrevTable__init__ off) s 3
      = Some (Stream.mk (Stream.data s) o1
                (entry_accesses structs (Stream.data s) off ++ Stream.log s),
              t1, Return (AbbrevDecl.mk 3 b3)) /\
    _parser_state t1 = GenSuspended o1 /\
    offset t1 = off /\
    forall s2,
      Stream.data s2 = Stream.data s ->
      get_abbrev structs fuel t1 s2 7
        = Some (Stream.mk (Stream.data s) o3
                  (entry_accesses structs (Stream.data s) o2 ++
                   entry_accesses structs (Stream.data s) o1 ++ Stream.log s2),
                t', Return (AbbrevDecl.mk 7 b7)).
Proof.
  intros H3 H1 H7 Hfuel.
  destruct fuel as [| [| [| fuel]]]; try lia.
  exists {| offset := off; _parser_state := GenSuspended o1;
            _abbrev_map := <[3 := AbbrevDecl.mk 3 b3]> ∅ |}.
  exists {| offset := off; _parser_state := GenSuspended o3;
            _abbrev_map :=
              <[7 := AbbrevDecl.mk 7 b7]>
                (<[1 := AbbrevDecl.mk 1 b1]> (<[3 := AbbrevDecl.mk 3 b3]> ∅)) |}.
  split.
  { unfold get_abbrev. cbn [AbbrevTable__init__ _abbrev_map].
    rewrite lookup_empty.
    erewrite (get_abbrev_loop_entry structs); [| reflexivity | exact H3].
    cbn [AbbrevDecl.code Z.eqb Pos.eqb offset _abbrev_map].
    erewrite (get_abbrev_loop_entry structs); [| reflexivity | exact H1].
    cbn [AbbrevDecl.code Z.eqb Pos.eqb offset _abbrev_map Stream.data Stream.log].
    erewrite (get_abbrev_loop_entry structs); [| reflexivity | exact H7].
    cbn [AbbrevDecl.code Z.eqb Pos.eqb offset _abbrev_map Stream.data Stream.log].
    reflexivity. }
  split; [reflexivity |]. split; [reflexivity |]. split.
  { intros fuel2 s2. split; apply get_abbrev_hit; cbn [_abbrev_map].
    - rewrite lookup_insert_ne by lia. rewrite lookup_insert_ne by lia.
      apply lookup_insert_eq.
    - rewrite lookup_insert_ne by lia. apply lookup_insert_eq. }
  split.
  { unfold get_abbrev. cbn [AbbrevTable__init__ _abbrev_map].
    rewrite lookup_empty.
    erewrite (get_abbrev_loop_entry structs); [| reflexivity | exact H3].
    cbn [AbbrevDecl.code Z.eqb Pos.eqb offset _abbrev_map].
    reflexivity. }
  split; [reflexivity |]. split; [reflexivity |].
  intros s2 Hdata.
  unfold get_abbrev. cbn [_abbrev_map].
  rewrite lookup_insert_ne by lia. rewrite lookup_empty.
  erewrite (get_abbrev_loop_entry structs);
    [| reflexivity | rewrite Hdata; exact H1].
  cbn [AbbrevDecl.code Z.eqb Pos.eqb offset _abbrev_map Stream.data Stream.log].
  erewrite (get_abbrev_loop_entry structs);
    [| reflexivity | cbn [Stream.data]; rewrite Hdata; exact H7].
  cbn [AbbrevDecl.code Z.eqb Pos.eqb offset _abbrev_map Stream.data Stream.log].
  rewrite Hdata. reflexivity.
Qed.

(** C3, as the code has it. The requested code is not in the cache, and the
    entries from the cursor on, up to the terminator, have other codes. With
    fuel for these entries [get_abbrev] stores them, finishes the parser and
    raises [KeyError code], which is not [ELFParseError]. From then on the
    table does not change, and every call for a code that is not in the
    cache raises [KeyError] for it and leaves the stream, with its log of
    accesses, as it is. *)
Theorem get_abbrev_not_found (fuel : nat) t s code (c : nat)
    (es : list (AbbrevDecl Container)) (off' : nat) :
  _abbrev_map t !! code = None ->
  cursor t = Some c ->
  entries_at structs (Stream.data s) c es off' ->
  terminator_at structs (Stream.data s) off' ->
  Forall (fun d => AbbrevDecl.code d <> code) es ->
  (length es < fuel)%nat ->
  exists s' t',
    get_abbrev structs fuel t s code = Some (s', t', Raise (KeyError code)) /\
    is_KeyError (KeyError code) = true /\
    is_ELFParseError (KeyError code) = false /\
    _parser_state t' = GenFinished /\
    _abbrev_map t' = cache_with es (_abbrev_map t) /\
    (forall t'', evolves structs t' t'' -> t'' = t') /\
    (forall code2 fuel2 s2,
       _abbrev_map t' !! code2 = None ->
       get_abbrev structs (S fuel2) t' s2 code2
         = Some (s2, t', Raise (KeyError code2))).
Proof.
  intros Hmiss Hc Hes Hterm Hne Hfuel.
  destruct (get_abbrev_to_terminator structs fuel t s code c es off'
              Hmiss Hc Hes Hterm Hne Hfuel) as (s' & t' & Hcall & Hfin & Hmap).
  exists s', t'. split; [exact Hcall |].
  split; [reflexivity |]. split; [reflexivity |]. split; [exact Hfin |].
  split; [exact Hmap |]. split.
  - intros t'' Hev. apply (evolves_finished structs _ _ Hev). exact Hfin.
  - intros code2 fuel2 s2 Hmiss2. apply get_abbrev_finished; [exact Hfin | exact Hmiss2].
Qed.

(** An iteration in which a decode fails. *)
Lemma get_abbrev_loop_failure (fuel : nat) t s code (c : nat) (msg : string) :
  cursor t = Some c ->
  decode_fails_at structs (Stream.data s) c msg ->
  exists s',
    get_abbrev_loop structs (S fuel) t s code =
      Some (s',
            {| offset := offset t; _parser_state := GenFinished;
               _abbrev_map := _abbrev_map t |},
            Raise (ELFParseError msg)).
Proof.
  intros Hc Hfail. simpl. rewrite (next_cursor structs t s c Hc).
  unfold decode_fails_at in Hfail.
  unfold _abbrev_table_parser, struct_parse, parse_stream. simpl.
  destruct (_parse (Dwarf_uleb128 structs EmptyString) (Stream.data s) c)
    as [[tr1 p1] [v | e1]].
  - destruct Hfail as [Hv Hfail].
    destruct (Z.eqb_spec v 0); [contradiction |]. simpl.
    destruct (_parse (Dwarf_abbrev_declaration structs) (Stream.data s) p1)
      as [[tr2 p2] [b | e2]]; [contradiction |].
    subst e2. eexists. reflexivity.
  - subst e1. eexists. reflexivity.
Qed.

(** A scan that passes over entries with other codes up to a decode that
    fails stores them, finishes the parser and raises [ELFParseError] with
    the message of the decode. *)
Lemma get_abbrev_to_failure (fuel : nat) t s code (c : nat)
    (es : list (AbbrevDecl Container)) (off' : nat) (msg : string) :
  _abbrev_map t !! code = None ->
  cursor t = Some c ->
  entries_at structs (Stream.data s) c es off' ->
  decode_fails_at structs (Stream.data s) off' msg ->
  Forall (fun d => AbbrevDecl.code d <> code) es ->
  (length es < fuel)%nat ->
  exists s' t',
    get_abbrev structs fuel t s code = Some (s', t', Raise (ELFParseError msg)) /\
    _parser_state t' = GenFinished /\
    _abbrev_map t' = cache_with es (_abbrev_map t).
Proof.
  intros Hmiss Hc Hes Hfail Hne Hfuel.
  destruct (get_abbrev_loop_skip structs code es t s c off' Hc Hes Hne)
    as (s1 & t1 & Hdata & Hcur & Hoff & Hmap & Hloop).
  rewrite <- Hdata in Hfail.
  destruct (get_abbrev_loop_failure 0 t1 s1 code off' msg Hcur Hfail)
    as (s' & Hlast).
  exists s'. eexists. split.
  { unfold get_abbrev. rewrite Hmiss.
    apply (get_abbrev_loop_fuel structs (length es + 1)); [| lia].
    rewrite Hloop. exact Hlast. }
  split; [reflexivity | exact Hmap].
Qed.

(** C9, as the code has it. Over well-behaved layouts, on a table reached
    from a new one by calls of [get_abbrev], and with fuel for the data:
    [get_abbrev 0] returns no declaration. It raises, leaves the parser
    finished and code 0 out of the cache. What it raises is [KeyError 0] or
    an [ELFParseError]: it is [KeyError 0] when the parser had finished
    before, and when the entries from the cursor on end with the
    terminator; it is [ELFParseError], with the message of the decode, when
    after the entries from the cursor on a decode fails. In both cases the
    entries passed are all in the cache. *)
Theorem get_abbrev_zero_fails (fuel : nat) t s :
  well_behaved structs ->
  reachable structs t ->
  (length (Stream.data s) < fuel)%nat ->
  exists s' t' e,
    get_abbrev structs fuel t s 0 = Some (s', t', Raise e) /\
    _parser_state t' = GenFinished /\
    _abbrev_map t' !! 0 = None /\
    (e = KeyError 0 \/ exists msg, e = ELFParseError msg) /\
    (cursor t = None -> e = KeyError 0 /\ s' = s /\ t' = t) /\
    (forall (c : nat) es (off' : nat),
       cursor t = Some c ->
       entries_at structs (Stream.data s) c es off' ->
       terminator_at structs (Stream.data s) off' ->
       e = KeyError 0 /\ _abbrev_map t' = cache_with es (_abbrev_map t)) /\
    (forall (c : nat) es (off' : nat) (msg : string),
       cursor t = Some c ->
       entries_at structs (Stream.data s) c es off' ->
       decode_fails_at structs (Stream.data s) off' msg ->
       e = ELFParseError msg /\ _abbrev_map t' = cache_with es (_abbrev_map t)).
Proof.
  intros Hwb Hreach Hfuel.
  pose proof (reachable_no_zero structs t Hreach) as Hzero.
  destruct (cursor t) as [c |] eqn:Hc.
  - destruct (get_abbrev_loop_total structs Hwb fuel t s 0 c Hc ltac:(lia))
      as (s' & t' & r & Hloop & Hr).
    assert (Hcall : get_abbrev structs fuel t s 0 = Some (s', t', r))
      by (unfold get_abbrev; rewrite Hzero; exact Hloop).
    pose proof (proj2 (get_abbrev_cache structs _ _ _ _ _ _ _ Hcall) Hzero) as Hzero'.
    destruct r as [d | e].
    { apply get_abbrev_cached in Hcall. congruence. }
    destruct Hr as [Hfin He].
    assert (Hsame : forall n s2 t2 e2,
              get_abbrev structs n t s 0 = Some (s2, t2, Raise e2) ->
              e = e2 /\ t' = t2).
    { intros n s2 t2 e2 Hcall2.
      unfold get_abbrev in Hcall, Hcall2. rewrite Hzero in Hcall, Hcall2.
      apply (get_abbrev_loop_fuel structs _ _ _ _ _ (fuel + n)) in Hcall; [| lia].
      apply (get_abbrev_loop_fuel structs _ _ _ _ _ (fuel + n)) in Hcall2; [| lia].
      rewrite Hcall in Hcall2. injection Hcall2 as _ <- <-. split; reflexivity. }
    exists s', t', e. split; [exact Hcall |]. split; [exact Hfin |].
    split; [exact Hzero' |]. split; [exact He |]. split; [discriminate |].
    split.
    + intros c0 es off' [= <-] Hes Hterm.
      pose proof (entries_at_codes structs _ _ _ _ Hes) as Hne.
      destruct (get_abbrev_to_terminator structs (S (length es)) t s 0 c es off'
                  Hzero Hc Hes Hterm Hne ltac:(lia))
        as (s2 & t2 & Hcall2 & _ & Hmap2).
      destruct (Hsame _ _ _ _ Hcall2) as [-> ->].
      split; [reflexivity | exact Hmap2].
    + intros c0 es off' msg [= <-] Hes Hfail.
      pose proof (entries_at_codes structs _ _ _ _ Hes) as Hne.
      destruct (get_abbrev_to_failure (S (length es)) t s 0 c es off' msg
                  Hzero Hc Hes Hfail Hne ltac:(lia))
        as (s2 & t2 & Hcall2 & _ & Hmap2).
      destruct (Hsame _ _ _ _ Hcall2) as [-> ->].
      split; [reflexivity | exact Hmap2].
  - assert (Hfin : _parser_state t = GenFinished).
    { unfold cursor in Hc. destruct (_parser_state t); congruence. }
    destruct fuel as [| fuel]; [lia |].
    exists s, t, (KeyError 0). split; [apply get_abbrev_finished; assumption |].
    split; [exact Hfin |]. split; [exact Hzero |]. split; [left; reflexivity |].
    split; [tauto |]. split; discriminate.
Qed.

End AbbrevTableClaims.

(** ** The layouts modelled from the wire format *)

Lemma uleb128_decode_length (bs : list byte) (v : Z) (n : nat) :
  uleb128_decode bs = Some (v, n) -> (1 <= n <= length bs)%nat.
Proof.
  revert v n. induction bs as [| b bs IH]; intros v n H; simpl in H; [discriminate |].
  destruct (byte_value b <? 128).
  - injection H as <- <-. simpl. lia.
  - destruct (uleb128_decode bs) as [[v' n'] |]; [| discriminate].
    injection H as <- <-. specialize (IH _ _ eq_refl). simpl. lia.
Qed.

Lemma dwarf_structs_well_behaved : well_behaved dwarf_structs.
Proof.
  split; simpl.
  - intros _ data p tr p' v.
    destruct (uleb128_decode (drop p data)) as [[v' n] |] eqn:H; [| discriminate].
    intros [= <- <- <-]. apply uleb128_decode_length in H.
    rewrite length_drop in H. lia.
  - intros data p tr p' v.
    destruct (abbrev_declaration_decode (drop p data)) as [[v' n] |];
      [| discriminate].
    intros [= <- <- <-]. lia.
  - intros _ data p tr p' e.
    destruct (uleb128_decode (drop p data)) as [[v' n] |]; [discriminate |].
    intros [= <- <- <-]. reflexivity.
  - intros data p tr p' e.
    destruct (abbrev_declaration_decode (drop p data)) as [[v' n] |];
      [discriminate |].
    intros [= <- <- <-]. reflexivity.
Qed.

(** The example table holds the three entries and the terminator. *)
Lemma table_3_1_7_entries :
  entries_at dwarf_structs table_3_1_7 2
    [AbbrevDecl.mk 3 body_3; AbbrevDecl.mk 1 body_1; AbbrevDecl.mk 7 body_7] 25 /\
  terminator_at dwarf_structs table_3_1_7 25.
Proof.
  split.
  - exists 9%nat. split; [reflexivity |].
    exists 16%nat. split; [reflexivity |].
    exists 25%nat. split; reflexivity.
  - eexists _, _. reflexivity.
Qed.

(** ** Examples *)

Lemma struct_parse_translates_errors_witness :
  struct_parse (Dwarf_uleb128 dwarf_structs "code") (Stream.of_bytes truncated_table) (Some 2%nat)
    = (Stream.mk truncated_table 2 [Stream.Read 1; Stream.Seek 2],
       Raise (ELFParseError "expected 1, found 0")) /\
  struct_parse (Dwarf_uleb128 dwarf_structs "code") (Stream.of_bytes truncated_table) None
    = (Stream.mk truncated_table 1 [Stream.Read 1], Return 3).
Proof.
  split.
  - apply (struct_parse_translates_errors
             (Dwarf_uleb128 dwarf_structs "code") (Stream.of_bytes truncated_table)
             (Some 2%nat)).
    reflexivity.
  - apply (struct_parse_translates_errors
             (Dwarf_uleb128 dwarf_structs "code") (Stream.of_bytes truncated_table)
             None).
    reflexivity.
Defined.

Lemma lazy_evaluated_once_example :
  (exists obj',
     getattr (class_of "Rectangle" [area; perimeter]) (rectangle 3 4) "area"
       = (obj', Some 12) /\
     calls obj' = ["area"%string]) /\
  NoDup (calls (getattrs (class_of "Rectangle" [area; perimeter]) (rectangle 3 4)
                  ["area"; "perimeter"; "area"; "perimeter"]%string)).
Proof.
  destruct (lazy_evaluated_once "Rectangle" [area; perimeter])
    as [Hfirst Honce]; [repeat constructor |].
  split.
  - destruct (Hfirst (rectangle 3 4) "area"%string (lazy__init__ area)
                eq_refl eq_refl) as (obj' & Hget & _ & Hcalls & _).
    exists obj'. split; [exact Hget | exact Hcalls].
  - apply (Honce (<["w"%string := 3]> (<["h"%string := 4]> ∅))).
Defined.

Lemma lazy_private_name_recomputes_witness :
  class_of "Rectangle" [secret] !! "_Rectangle__secret"%string
    = Some (lazy__init__ secret) /\
  calls (getattrs (class_of "Rectangle" [secret]) (rectangle 3 4)
           (repeat "_Rectangle__secret"%string 3))
    = ["__secret"; "__secret"; "__secret"]%string.
Proof.
  destruct (lazy_private_name_recomputes "Rectangle" secret 3) as [Hbound Hcalls].
  - discriminate.
  - split; [exact Hbound |]. apply (Hcalls (rectangle 3 4)). reflexivity.
Defined.

Lemma parse_cstring_boundary_cases_witness :
  (exists s',
     parse_cstring_from_stream 67 (Stream.of_bytes cstring_64) None
       = Some (s', Some (repeat x41 64))) /\
  (exists s',
     parse_cstring_from_stream 67 (Stream.of_bytes cstring_63) None
       = Some (s', Some (repeat x41 63))).
Proof.
  split.
  - destruct (parse_cstring_boundary_cases 67 (Stream.of_bytes cstring_64) None)
      as (s' & r & Hparse & _ & _ & _ & Hboundary); [vm_compute; lia |].
    exists s'. rewrite Hparse. f_equal. f_equal.
    apply (Hboundary 1%nat (repeat x41 64) [x42]).
    + reflexivity.
    + apply cstring_of_None_iff. reflexivity.
    + right. reflexivity.
  - destruct (parse_cstring_boundary_cases 67 (Stream.of_bytes cstring_63) None)
      as (s' & r & Hparse & _ & _ & _ & Hboundary); [vm_compute; lia |].
    exists s'. rewrite Hparse. f_equal. f_equal.
    apply (Hboundary 1%nat (repeat x41 63) [x42]).
    + reflexivity.
    + apply cstring_of_None_iff. reflexivity.
    + left. reflexivity.
Defined.

Lemma parse_cstring_final_position_witness :
  exists s',
    parse_cstring_from_stream 71 (Stream.of_bytes cstring_3_more) None
      = Some (s', Some [x61; x62; x63]) /\
    Stream.pos s' = 64%nat.
Proof.
  destruct (parse_cstring_final_position 71 (Stream.of_bytes cstring_3_more) None
              [x61; x62; x63]) as (s' & k & Hparse & Hk & Hpos & _);
    [vm_compute; lia | reflexivity |].
  exists s'. split; [exact Hparse |].
  rewrite Hpos. unfold CHUNKSIZE in *. simpl in Hk.
  assert (k = 0%nat) as -> by lia. reflexivity.
Defined.

(** C10, as stated, fails: for a string that ends the data, the scanner
    leaves the stream right after the terminator, at offset 4, which is not
    64 bytes after the start. *)
Lemma parse_cstring_position_after_terminator :
  ~ (forall s' bs,
       parse_cstring_from_stream 1 (Stream.of_bytes cstring_3_last) None
         = Some (s', Some bs) ->
       Stream.pos s' = (0 + CHUNKSIZE * (length bs / CHUNKSIZE + 1))%nat /\
       Stream.pos s' <> (0 + length bs + 1)%nat).
Proof.
  intros H.
  destruct (H (Stream.mk cstring_3_last 4 [Stream.Read 64]) [x61; x62; x63] eq_refl)
    as [_ Hnot].
  apply Hnot. reflexivity.
Qed.

Lemma get_abbrev_resumable_witness :
  exists s' t1 t',
    get_abbrev dwarf_structs 3 (AbbrevTable__init__ 2) (Stream.of_bytes table_3_1_7) 7
      = Some (s', t', Return (AbbrevDecl.mk 7 body_7)) /\
    Stream.pos s' = 25%nat /\
    Stream.seeks (Stream.log s') = [16; 9; 2]%nat /\
    (forall fuel2 s2,
       get_abbrev dwarf_structs fuel2 t' s2 3
         = Some (s2, t', Return (AbbrevDecl.mk 3 body_3)) /\
       get_abbrev dwarf_structs fuel2 t' s2 1
         = Some (s2, t', Return (AbbrevDecl.mk 1 body_1))) /\
    get_abbrev dwarf_structs 3 (AbbrevTable__init__ 2) (Stream.of_bytes table_3_1_7) 3
      = Some (Stream.mk table_3_1_7 9
                (entry_accesses dwarf_structs table_3_1_7 2), t1,
              Return (AbbrevDecl.mk 3 body_3)) /\
    exists s2',
      get_abbrev dwarf_structs 3 t1
        (Stream.seek 0 (Stream.mk table_3_1_7 9
                          (entry_accesses dwarf_structs table_3_1_7 2))) 7
        = Some (s2', t', Return (AbbrevDecl.mk 7 body_7)) /\
      Stream.seeks (Stream.log s2') = [16; 9; 0; 2]%nat.
Proof.
  destruct (get_abbrev_resumable dwarf_structs (Stream.of_bytes table_3_1_7)
              2 9 16 25 body_3 body_1 body_7 3)
    as (t1 & t' & Hcall & _ & _ & Hhits & Hfirst & _ & _ & Hlater);
    [reflexivity | reflexivity | reflexivity | lia |].
  eexists _, t1, t'. split; [exact Hcall |].
  split; [reflexivity |]. split; [reflexivity |]. split; [exact Hhits |].
  split; [exact Hfirst |].
  eexists. split; [apply Hlater; reflexivity | reflexivity].
Defined.

(** The cursor is kept between calls: after [get_abbrev 3], and with the
    stream moved elsewhere in between, [get_abbrev 7] seeks to offset 9,
    after the entry of code 3, and not to the start of the table. *)
Example get_abbrev_resumes_at_cursor :
  exists s1 t1 s2 t2,
    get_abbrev dwarf_structs 3 (AbbrevTable__init__ 2) (Stream.of_bytes table_3_1_7) 3
      = Some (s1, t1, Return (AbbrevDecl.mk 3 body_3)) /\
    get_abbrev dwarf_structs 3 t1 (Stream.seek 0 s1) 7
      = Some (s2, t2, Return (AbbrevDecl.mk 7 body_7)) /\
    Stream.seeks (Stream.log s2) = [16; 9; 0; 2]%nat.
Proof.
  eexists _, _, _, _. split; [vm_compute; reflexivity |].
  split; vm_compute; reflexivity.
Qed.

Lemma get_abbrev_not_found_witness :
  exists s' t',
    get_abbrev dwarf_structs 4 (AbbrevTable__init__ 2) (Stream.of_bytes table_3_1_7) 5
      = Some (s', t', Raise (KeyError 5)) /\
    _parser_state t' = GenFinished /\
    forall fuel2 s2,
      get_abbrev dwarf_structs (S fuel2) t' s2 9 = Some (s2, t', Raise (KeyError 9)).
Proof.
  destruct table_3_1_7_entries as [Hentries Hterm].
  destruct (get_abbrev_not_found dwarf_structs 4 (AbbrevTable__init__ 2)
              (Stream.of_bytes table_3_1_7) 5 2
              [AbbrevDecl.mk 3 body_3; AbbrevDecl.mk 1 body_1; AbbrevDecl.mk 7 body_7]
              25)
    as (s' & t' & Hcall & _ & _ & Hfin & Hmap & _ & Hlater).
  - reflexivity.
  - reflexivity.
  - exact Hentries.
  - exact Hterm.
  - repeat constructor; simpl; lia.
  - simpl; lia.
  - exists s', t'. split; [exact Hcall |]. split; [exact Hfin |].
    intros fuel2 s2. apply Hlater. rewrite Hmap. reflexivity.
Defined.

(** C3, as stated, fails: the error raised for a code that is not in the
    table is [KeyError], the error of a missing key. *)
Lemma get_abbrev_not_found_is_KeyError :
  ~ (exists s' t' e,
       get_abbrev dwarf_structs 4 (AbbrevTable__init__ 2)
         (Stream.of_bytes table_3_1_7) 5 = Some (s', t', Raise e) /\
       is_ELFParseError e = false /\
       is_KeyError e = false).
Proof.
  intros (s' & t' & e & Hcall & _ & Hkey).
  vm_compute in Hcall. injection Hcall as _ _ <-. discriminate Hkey.
Qed.

Lemma get_abbrev_zero_fails_witness :
  (exists s' t',
     get_abbrev dwarf_structs 27 (AbbrevTable__init__ 2) (Stream.of_bytes table_3_1_7) 0
       = Some (s', t', Raise (KeyError 0)) /\
     _parser_state t' = GenFinished /\
     _abbrev_map t' !! 7 = Some (AbbrevDecl.mk 7 body_7)) /\
  (exists s' t',
     get_abbrev dwarf_structs 3 (AbbrevTable__init__ 0) (Stream.of_bytes truncated_table) 0
       = Some (s', t', Raise (ELFParseError "expected 1, found 0")) /\
     _parser_state t' = GenFinished).
Proof.
  split.
  - destruct table_3_1_7_entries as [Hentries Hterm].
    destruct (get_abbrev_zero_fails dwarf_structs 27 (AbbrevTable__init__ 2)
                (Stream.of_bytes table_3_1_7))
      as (s' & t' & e & Hcall & Hfin & _ & _ & _ & Hwhole & _).
    + exact dwarf_structs_well_behaved.
    + exists 2%nat. apply evolves_refl.
    + simpl. lia.
    + destruct (Hwhole 2%nat _ 25%nat eq_refl Hentries Hterm) as [-> Hmap].
      exists s', t'. split; [exact Hcall |]. split; [exact Hfin |].
      rewrite Hmap. reflexivity.
  - destruct (get_abbrev_zero_fails dwarf_structs 3 (AbbrevTable__init__ 0)
                (Stream.of_bytes truncated_table))
      as (s' & t' & e & Hcall & Hfin & _ & _ & _ & _ & Hcut).
    + exact dwarf_structs_well_behaved.
    + exists 0%nat. apply evolves_refl.
    + simpl. lia.
    + destruct (Hcut 0%nat [] 0%nat "expected 1, found 0"%string eq_refl eq_refl)
        as [-> _].
      { split; [discriminate | reflexivity]. }
      exists s', t'. split; [exact Hcall | exact Hfin].
Defined.

(** C9, as stated, fails: on a table that is cut short, [get_abbrev 0] does
    not raise [KeyError]; the failed decode raises [ELFParseError]. *)
Lemma get_abbrev_zero_parse_error :
  ~ (exists s' t',
       get_abbrev dwarf_structs 3 (AbbrevTable__init__ 0)
         (Stream.of_bytes truncated_table) 0 = Some (s', t', Raise (KeyError 0))).
Proof.
  intros (s' & t' & Hcall). vm_compute in Hcall. discriminate Hcall.
Qed.

(** * Further properties *)

(** ** [merge_dicts] *)

Section MergeDictsFacts.

Context `{Countable K} {V : Type}.

Implicit Types (d m : gmap K V) (ds : list (gmap K V)).

Lemma update_all_union ds : forall m,
  foldl (fun result d => d ∪ result) m ds = merge_dicts ds ∪ m.
Proof.
  unfold merge_dicts.
  induction ds as [| d ds IH]; intros m; simpl.
  - rewrite (left_id_L ∅ (∪)). reflexivity.
  - rewrite IH, (IH (d ∪ ∅)), (right_id_L ∅ (∪)), (assoc_L (∪)). reflexivity.
Qed.

Lemma merge_dicts_app ds1 ds2 :
  merge_dicts (ds1 ++ ds2) = merge_dicts ds2 ∪ merge_dicts ds1.
Proof.
  unfold merge_dicts at 1. rewrite foldl_app. apply update_all_union.
Qed.

Lemma merge_dicts_None ds k :
  merge_dicts ds !! k = None <-> Forall (fun d => d !! k = None) ds.
Proof.
  induction ds as [| d ds IH] using rev_ind.
  - split; [constructor | intros _; apply lookup_empty].
  - rewrite merge_dicts_app, lookup_union_None, Forall_app, IH.
    unfold merge_dicts. simpl. rewrite (right_id_L ∅ (∪)).
    rewrite Forall_singleton. tauto.
Qed.

(** X1. In the merged dict a key has the value of the last dict that holds
    it, and a key is missing exactly when every dict misses it. *)
Theorem merge_dicts_last_wins ds1 d ds2 k v :
  d !! k = Some v ->
  Forall (fun d' => d' !! k = None) ds2 ->
  merge_dicts (ds1 ++ d :: ds2) !! k = Some v /\
  (forall ds k', merge_dicts ds !! k' = None <->
                 Forall (fun d' => d' !! k' = None) ds).
Proof.
  intros Hd Hnone. split; [| intros ds k'; apply merge_dicts_None].
  rewrite merge_dicts_app.
  change (d :: ds2) with ([d] ++ ds2). rewrite merge_dicts_app.
  apply merge_dicts_None in Hnone.
  rewrite <- (assoc_L (∪)), lookup_union_r by exact Hnone.
  apply lookup_union_Some_l.
  unfold merge_dicts. simpl. rewrite (right_id_L ∅ (∪)). exact Hd.
Qed.

(** X2. Merging is associative: merging two lists of dicts one after the
    other is merging their two merged dicts; no dict gives the empty dict
    and one dict gives this dict. *)
Theorem merge_dicts_flatten ds1 ds2 :
  merge_dicts (ds1 ++ ds2) = merge_dicts [merge_dicts ds1; merge_dicts ds2] /\
  merge_dicts (@nil (gmap K V)) = ∅ /\
  (forall d, merge_dicts [d] = d).
Proof.
  split; [| split].
  - rewrite merge_dicts_app. unfold merge_dicts at 3. simpl.
    rewrite (right_id_L ∅ (∪)). reflexivity.
  - reflexivity.
  - intros d. unfold merge_dicts. simpl. apply (right_id_L ∅ (∪)).
Qed.

End MergeDictsFacts.

Lemma merge_dicts_last_wins_witness :
  merge_dicts [ {[ 1 := 10; 2 := 20 ]}; {[ 2 := 21; 3 := 31 ]}; {[ 3 := 32 ]} ]
    !! 2 = Some 21.
Proof.
  apply (merge_dicts_last_wins
           [ {[ 1 := 10; 2 := 20 ]} ] {[ 2 := 21; 3 := 31 ]} [ {[ 3 := 32 ]} ] 2 21).
  - reflexivity.
  - repeat constructor.
Defined.

(** ** [bytelist2string] *)

(** X3. When [int2byte] gives, for a value from 0 to 255, the one byte of
    this value, [bytelist2string] of a list of such values is a byte
    sequence of the same length whose bytes have these values, in order. *)
Theorem bytelist2string_values (int2byte : Z -> list byte) (bytelist : list Z) :
  (forall x, 0 <= x < 256 -> exists b, int2byte x = [b] /\ byte_value b = x) ->
  Forall (fun x => 0 <= x < 256) bytelist ->
  map byte_value (bytelist2string int2byte bytelist) = bytelist /\
  length (bytelist2string int2byte bytelist) = length bytelist.
Proof.
  intros Hbyte Hrange. unfold bytelist2string.
  induction Hrange as [| x l Hx _ [IHv IHl]]; [split; reflexivity |].
  destruct (Hbyte x Hx) as (b & Hb & Hv).
  simpl. rewrite Hb. simpl. rewrite Hv, IHv, IHl. split; reflexivity.
Qed.

Lemma byte_of_value_spec (x : Z) :
  0 <= x < 256 -> exists b, byte_of_value x = [b] /\ byte_value b = x.
Proof.
  intros Hx. unfold byte_of_value, byte_value.
  destruct (Byte.of_N (Z.to_N x)) as [b |] eqn:Hb.
  - exists b. split; [reflexivity |].
    apply Byte.to_of_N in Hb. rewrite Hb. lia.
  - apply Byte.of_N_None_iff in Hb. lia.
Qed.

Lemma bytelist2string_values_witness :
  map byte_value (bytelist2string byte_of_value [16; 32; 0]) = [16; 32; 0] /\
  length (bytelist2string byte_of_value [16; 32; 0]) = 3%nat.
Proof.
  apply (bytelist2string_values byte_of_value [16; 32; 0]).
  - exact byte_of_value_spec.
  - repeat constructor; lia.
Defined.

(** ** More on [roundup] *)

Lemma roundup_quotient (num bits : Z) :
  0 <= bits -> roundup num bits = 2 ^ bits * ((num - 1) / 2 ^ bits + 1).
Proof.
  intros Hb. rewrite roundup_eq by lia.
  pose proof (Z.div_mod (num - 1) (2 ^ bits)) as H.
  assert (0 < 2 ^ bits) by (apply Z.pow_pos_nonneg; lia). lia.
Qed.

Lemma roundup_bounds (num bits : Z) :
  0 <= bits ->
  roundup num bits mod 2 ^ bits = 0 /\
  num <= roundup num bits < num + 2 ^ bits.
Proof.
  intros Hb.
  assert (Hpow : 0 < 2 ^ bits) by (apply Z.pow_pos_nonneg; lia).
  pose proof (Z.mod_pos_bound (num - 1) (2 ^ bits) Hpow) as Hmod.
  pose proof (roundup_eq num bits Hb) as Heq.
  split; [| lia].
  rewrite (roundup_quotient num bits Hb), Z.mul_comm. apply Z.mod_mul. lia.
Qed.

(** X4. For every integer [num], negative ones too, and [bits >= 0],
    [roundup num bits] is the one multiple of [2 ^ bits] from [num] up to,
    and without, [num + 2 ^ bits]. *)
Theorem roundup_window (num bits : Z) :
  0 <= bits ->
  roundup num bits mod 2 ^ bits = 0 /\
  num <= roundup num bits < num + 2 ^ bits /\
  (forall m, m mod 2 ^ bits = 0 -> num <= m < num + 2 ^ bits ->
             m = roundup num bits).
Proof.
  intros Hb.
  assert (Hpow : 0 < 2 ^ bits) by (apply Z.pow_pos_nonneg; lia).
  destruct (roundup_bounds num bits Hb) as [Hmul Hwin].
  pose proof (roundup_quotient num bits Hb) as Hq.
  split; [exact Hmul |]. split; [exact Hwin |].
  intros m Hm Hm'.
  apply Z.mod_divide in Hm; [| lia]. destruct Hm as [k ->].
  rewrite Hq in *.
  assert (k = (num - 1) / 2 ^ bits + 1) by nia. subst k. lia.
Qed.

Lemma roundup_window_witness :
  roundup (-9) 3 mod 2 ^ 3 = 0 /\ -9 <= roundup (-9) 3 < -9 + 2 ^ 3.
Proof.
  destruct (roundup_window (-9) 3) as (Hm & Hw & _); [lia |].
  split; [exact Hm | exact Hw].
Defined.

(** X5. For [bits >= 0], [roundup] leaves exactly the multiples of
    [2 ^ bits] as they are; so rounding up twice is rounding up once, and
    rounding up by 0 bits changes nothing. *)
Theorem roundup_fixed_points (num bits : Z) :
  0 <= bits ->
  (roundup num bits = num <-> num mod 2 ^ bits = 0) /\
  roundup (roundup num bits) bits = roundup num bits /\
  roundup num 0 = num.
Proof.
  intros Hb.
  assert (Hpow : 0 < 2 ^ bits) by (apply Z.pow_pos_nonneg; lia).
  assert (Hfix : forall n, roundup n bits = n <-> n mod 2 ^ bits = 0).
  { intros n. rewrite roundup_eq by lia.
    pose proof (Z.mod_pos_bound (n - 1) (2 ^ bits) Hpow) as Hmod.
    pose proof (Z.mod_pos_bound n (2 ^ bits) Hpow) as Hmodn.
    pose proof (Z.div_mod (n - 1) (2 ^ bits) ltac:(lia)) as H1.
    pose proof (Z.div_mod n (2 ^ bits) ltac:(lia)) as H2.
    split; intros Hn.
    - assert (Hn' : n = 2 ^ bits * ((n - 1) / 2 ^ bits + 1)) by lia.
      rewrite Hn', Z.mul_comm. apply Z.mod_mul. lia.
    - assert ((n - 1) / 2 ^ bits = n / 2 ^ bits - 1) by nia. lia. }
  split; [apply Hfix |]. split.
  - apply Hfix. rewrite roundup_quotient by lia.
    rewrite Z.mul_comm. apply Z.mod_mul. lia.
  - rewrite roundup_eq by lia. rewrite Z.pow_0_r, Z.mod_1_r. lia.
Qed.

Lemma roundup_fixed_points_witness :
  roundup 24 3 = 24 /\ roundup (roundup 17 3) 3 = roundup 17 3.
Proof.
  destruct (roundup_fixed_points 24 3) as (H24 & _ & _); [lia |].
  destruct (roundup_fixed_points 17 3) as (_ & H17 & _); [lia |].
  split; [apply H24; reflexivity | exact H17].
Defined.

(** X6. [roundup] grows with the number and with the number of bits: for
    [num <= num'] and [0 <= bits <= bits'],
    [roundup num bits <= roundup num' bits] and
    [roundup num bits <= roundup num bits']. *)
Theorem roundup_monotone (num num' bits bits' : Z) :
  num <= num' -> 0 <= bits <= bits' ->
  roundup num bits <= roundup num' bits /\
  roundup num bits <= roundup num bits'.
Proof.
  intros Hn Hb.
  assert (Hpow : 0 < 2 ^ bits) by (apply Z.pow_pos_nonneg; lia).
  split.
  - rewrite !roundup_quotient by lia.
    assert ((num - 1) / 2 ^ bits <= (num' - 1) / 2 ^ bits)
      by (apply Z.div_le_mono; lia).
    nia.
  - destruct (roundup_bounds num bits' ltac:(lia)) as (Hm' & Hw').
    destruct (roundup_bounds num bits ltac:(lia)) as (Hm & Hw).
    assert (Hdiv : roundup num bits' mod 2 ^ bits = 0).
    { apply Z.mod_divide; [lia |].
      apply Z.divide_trans with (2 ^ bits').
      - exists (2 ^ (bits' - bits)). rewrite <- Z.pow_add_r by lia. f_equal. lia.
      - apply Z.mod_divide; [| exact Hm'].
        assert (0 < 2 ^ bits') by (apply Z.pow_pos_nonneg; lia). lia. }
    apply Z.mod_divide in Hdiv; [| lia]. destruct Hdiv as [k Hk].
    apply Z.mod_divide in Hm; [| lia]. destruct Hm as [j Hj].
    rewrite Hk in Hw' |- *. rewrite Hj in Hw |- *.
    assert (Hlt : j * 2 ^ bits < (k + 1) * 2 ^ bits) by lia.
    apply Z.mul_lt_mono_pos_r in Hlt; [| exact Hpow].
    apply Z.mul_le_mono_nonneg_r; lia.
Qed.

Lemma roundup_monotone_witness :
  roundup 9 3 <= roundup 17 3 /\ roundup 9 3 <= roundup 9 5.
Proof. apply (roundup_monotone 9 17 3 5); lia. Defined.

(** ** More on [struct_parse] and [preserve_stream_pos] *)

(** X7. With an explicit offset, what [struct_parse] returns or raises and
    where it leaves the stream do not depend on where the stream was, only
    on its data; the data is left as it is. Without an offset it decodes
    at the current position. *)
Theorem struct_parse_at_offset {A} (struct : Struct A) (s1 s2 : Stream) (p : nat) :
  Stream.data s1 = Stream.data s2 ->
  snd (struct_parse struct s1 (Some p)) = snd (struct_parse struct s2 (Some p)) /\
  Stream.pos (fst (struct_parse struct s1 (Some p)))
    = Stream.pos (fst (struct_parse struct s2 (Some p))) /\
  Stream.data (fst (struct_parse struct s1 (Some p))) = Stream.data s1 /\
  snd (struct_parse struct s1 None)
    = snd (struct_parse struct s1 (Some (Stream.pos s1))) /\
  Stream.pos (fst (struct_parse struct s1 None))
    = Stream.pos (fst (struct_parse struct s1 (Some (Stream.pos s1)))).
Proof.
  intros Hdata. unfold struct_parse, parse_stream. simpl. rewrite <- Hdata.
  destruct (_parse struct (Stream.data s1) p) as [[tr p'] [v | e]];
    [| destruct e]; simpl;
    (split; [reflexivity |]; split; [reflexivity |]; split; [reflexivity |]);
    destruct (_parse struct (Stream.data s1) (Stream.pos s1)) as [[tr1 p1] [v1 | e1]];
    try destruct e1; split; reflexivity.
Qed.

Lemma struct_parse_at_offset_witness :
  snd (struct_parse (Dwarf_uleb128 dwarf_structs "code")
         (Stream.of_bytes table_3_1_7) (Some 9%nat))
  = snd (struct_parse (Dwarf_uleb128 dwarf_structs "code")
           (Stream.seek 20 (Stream.of_bytes table_3_1_7)) (Some 9%nat)).
Proof.
  apply (struct_parse_at_offset (Dwarf_uleb128 dwarf_structs "code")
           (Stream.of_bytes table_3_1_7)
           (Stream.seek 20 (Stream.of_bytes table_3_1_7)) 9).
  reflexivity.
Defined.

(** X8. [struct_parse] at an offset inside a [preserve_stream_pos] block is
    a peek: when it returns a value the stream is where it was before the
    block, with the same data, and the same block run again returns the
    same value. *)
Theorem guarded_struct_parse_peeks {A} (struct : Struct A) (p : nat)
    (s s' : Stream) (v : A) :
  guarded_struct_parse struct p s = (s', Return v) ->
  Stream.pos s' = Stream.pos s /\
  Stream.data s' = Stream.data s /\
  exists s'', guarded_struct_parse struct p s' = (s'', Return v) /\
              Stream.pos s'' = Stream.pos s.
Proof.
  unfold guarded_struct_parse, preserve_stream_pos, struct_parse, parse_stream.
  simpl.
  destruct (_parse struct (Stream.data s) p) as [[tr p'] [v' | e]] eqn:Hp;
    [| destruct e; discriminate].
  intros [= <- <-]. simpl. rewrite Hp.
  split; [reflexivity |]. split; [reflexivity |].
  eexists. split; reflexivity.
Qed.

Lemma guarded_struct_parse_peeks_witness :
  exists s',
    guarded_struct_parse (Dwarf_uleb128 dwarf_structs "code") 9
      (Stream.of_bytes table_3_1_7) = (s', Return 1) /\
    Stream.pos s' = 0%nat.
Proof.
  eexists. split; [reflexivity |].
  apply (guarded_struct_parse_peeks (Dwarf_uleb128 dwarf_structs "code") 9
           (Stream.of_bytes table_3_1_7) _ 1 eq_refl).
Defined.

(** ** More on [parse_cstring_from_stream] *)

Section CStringReads.

Local Open Scope nat_scope.

(** The accesses of the loop: reads of one chunk each, as many as there are
    chunks up to the one with the null byte, or up to the last, short one. *)
Lemma cstring_loop_reads (fuel : nat) :
  forall (s : Stream) (chunks : list (list byte)),
    length (Stream.rest s) < CHUNKSIZE * fuel ->
    exists s' chunks' found n,
      cstring_loop fuel s chunks = Some (s', chunks', found) /\
      Stream.log s' = repeat (Stream.Read CHUNKSIZE) n ++ Stream.log s /\
      1 <= n /\
      match cstring_of (Stream.rest s) with
      | Some bs => CHUNKSIZE * (n - 1) <= length bs < CHUNKSIZE * n
      | None =>
          CHUNKSIZE * (n - 1) <= length (Stream.rest s) < CHUNKSIZE * n /\
          Stream.pos s' = Stream.pos s + length (Stream.rest s)
      end.
Proof.
  unfold CHUNKSIZE.
  induction fuel as [| fuel IH]; intros s chunks Hfuel; [lia |].
  unfold Stream.rest in *. simpl. unfold CHUNKSIZE.
  set (rest := drop (Stream.pos s) (Stream.data s)) in *.
  set (chunk := take 64 rest).
  assert (Hrest : rest = chunk ++ drop 64 rest) by (symmetry; apply take_drop).
  assert (Hlen : length chunk = Nat.min 64 (length rest)) by apply length_take.
  pose proof (bytes_find_cstring_of chunk) as Hfind.
  destruct (cstring_of chunk) as [bs |] eqn:Hchunk.
  - destruct Hfind as [Hfind Htake]. rewrite Hfind.
    destruct (Z.leb_spec 0 (Z.of_nat (length bs))); [| lia].
    exists (Stream.mk (Stream.data s) (Stream.pos s + length chunk)
              (Stream.Read 64 :: Stream.log s)).
    eexists _, _, 1. split; [reflexivity |]. split; [reflexivity |].
    split; [lia |].
    rewrite Hrest, (cstring_of_app_Some _ _ _ Hchunk).
    apply cstring_of_length in Hchunk. lia.
  - rewrite Hfind. simpl.
    destruct (Nat.ltb_spec (length chunk) 64) as [Hshort | Hfull].
    + exists (Stream.mk (Stream.data s) (Stream.pos s + length chunk)
                (Stream.Read 64 :: Stream.log s)).
      eexists _, _, 1. split; [reflexivity |]. split; [reflexivity |].
      split; [lia |].
      assert (Hall : chunk = rest) by (apply take_ge; lia).
      rewrite <- Hall, Hchunk. simpl. lia.
    + assert (Hc64 : length chunk = 64) by lia.
      set (s1 := Stream.mk (Stream.data s) (Stream.pos s + length chunk)
                   (Stream.Read 64 :: Stream.log s)).
      assert (Hrest1 : drop (Stream.pos s1) (Stream.data s1) = drop 64 rest).
      { subst s1. simpl. rewrite Hc64. unfold rest. rewrite drop_drop. reflexivity. }
      destruct (IH s1 (chunks ++ [chunk]))
        as (s' & chunks' & found & n & Hloop & Hlog & Hn & Hres).
      { rewrite Hrest1, length_drop. lia. }
      exists s', chunks', found, (S n). split; [exact Hloop |]. split.
      { rewrite Hlog. subst s1. simpl.
        cbn [repeat]. rewrite app_comm_cons, repeat_cons, <- app_assoc.
        reflexivity. }
      split; [lia |].
      rewrite Hrest1 in Hres.
      assert (Hlr : length rest = 64 + length (drop 64 rest)).
      { rewrite Hrest at 1. rewrite length_app. lia. }
      pose proof (cstring_of_app_None chunk (drop 64 rest) Hchunk) as Hcs.
      rewrite <- Hrest in Hcs. rewrite Hcs.
      destruct (cstring_of (drop 64 rest)) as [bs' |]; simpl.
      * rewrite length_app, Hc64. lia.
      * destruct Hres as [Hres Hpos]. split; [lia |].
        rewrite Hpos. subst s1. simpl. lia.
Qed.

End CStringReads.

Lemma positioned_facts (s : Stream) (sp : option nat) :
  Stream.rest (positioned s sp) = drop (default (Stream.pos s) sp) (Stream.data s) /\
  Stream.data (positioned s sp) = Stream.data s /\
  Stream.pos (positioned s sp) = default (Stream.pos s) sp.
Proof. destruct sp; repeat split. Qed.

(** X9. With fuel for the loop, the only accesses [parse_cstring_from_stream]
    makes after positioning the stream are reads of one chunk of 64 bytes;
    it makes [n >= 1] of them, where chunk [n] is the one that holds the
    null byte or, without a null byte, the last, short chunk. It never
    seeks back and leaves the data as it is. *)
Theorem parse_cstring_reads (fuel : nat) (s : Stream) (sp : option nat) :
  (length (Stream.data s) < fuel)%nat ->
  exists s' r n,
    parse_cstring_from_stream fuel s sp = Some (s', r) /\
    Stream.log s' = repeat (Stream.Read CHUNKSIZE) n ++ Stream.log (positioned s sp) /\
    Stream.data s' = Stream.data s /\
    (1 <= n)%nat /\
    (CHUNKSIZE * (n - 1)
       <= match r with
          | Some bs => length bs
          | None => length (drop (default (Stream.pos s) sp) (Stream.data s))
          end
       < CHUNKSIZE * n)%nat.
Proof.
  intros Hfuel.
  destruct (positioned_facts s sp) as (Hrest & Hdata & Hpos).
  assert (Hf : (length (Stream.rest (positioned s sp)) < CHUNKSIZE * fuel)%nat).
  { rewrite Hrest, length_drop. unfold CHUNKSIZE. lia. }
  destruct (cstring_loop_spec fuel (positioned s sp) [] Hf)
    as (s' & chunks' & found & Hloop & Hd & Hres).
  destruct (cstring_loop_reads fuel (positioned s sp) [] Hf)
    as (s2 & chunks2 & found2 & n & Hloop2 & Hlog & Hn & Hreads).
  rewrite Hloop in Hloop2. injection Hloop2 as <- <- <-.
  exists s', (if found then Some (concat chunks') else None), n.
  split.
  { unfold parse_cstring_from_stream. fold (positioned s sp). rewrite Hloop.
    reflexivity. }
  split; [exact Hlog |]. split; [congruence |]. split; [exact Hn |].
  rewrite Hrest in Hres, Hreads.
  destruct (cstring_of (drop (default (Stream.pos s) sp) (Stream.data s)))
    as [bs |].
  - destruct Hres as (-> & -> & _). exact Hreads.
  - rewrite Hres. tauto.
Qed.

Lemma parse_cstring_reads_witness :
  exists s',
    parse_cstring_from_stream 67 (Stream.of_bytes cstring_64) None
      = Some (s', Some (repeat x41 64)) /\
    Stream.log s' = [Stream.Read 64; Stream.Read 64].
Proof.
  destruct (parse_cstring_reads 67 (Stream.of_bytes cstring_64) None)
    as (s' & r & n & Hparse & Hlog & _ & Hn & Hlen); [vm_compute; lia |].
  assert (Hr : parse_cstring_from_stream 67 (Stream.of_bytes cstring_64) None
               = Some (Stream.mk cstring_64 66 [Stream.Read 64; Stream.Read 64],
                       Some (repeat x41 64))) by (vm_compute; reflexivity).
  rewrite Hparse in Hr. injection Hr as -> ->.
  eexists. split; reflexivity.
Defined.

(** X10. With fuel for the loop, when there is no null byte from the start
    position on, [parse_cstring_from_stream] returns [None] and has
    exhausted the stream: it leaves it at the end of the data, or where it
    started when this is past the end. *)
Theorem parse_cstring_exhausts (fuel : nat) (s : Stream) (sp : option nat) :
  (length (Stream.data s) < fuel)%nat ->
  x00 ∉ drop (default (Stream.pos s) sp) (Stream.data s) ->
  exists s',
    parse_cstring_from_stream fuel s sp = Some (s', None) /\
    Stream.pos s' = Nat.max (default (Stream.pos s) sp) (length (Stream.data s)) /\
    Stream.rest s' = [].
Proof.
  intros Hfuel Hnot. apply cstring_of_None_iff in Hnot.
  destruct (positioned_facts s sp) as (Hrest & Hdata & Hpos).
  assert (Hf : (length (Stream.rest (positioned s sp)) < CHUNKSIZE * fuel)%nat).
  { rewrite Hrest, length_drop. unfold CHUNKSIZE. lia. }
  destruct (cstring_loop_spec fuel (positioned s sp) [] Hf)
    as (s' & chunks' & found & Hloop & Hd & Hres).
  destruct (cstring_loop_reads fuel (positioned s sp) [] Hf)
    as (s2 & chunks2 & found2 & n & Hloop2 & _ & _ & Hreads).
  rewrite Hloop in Hloop2. injection Hloop2 as <- <- <-.
  rewrite Hrest, Hnot in Hres, Hreads. subst found.
  destruct Hreads as [_ Hend]. rewrite Hpos, length_drop in Hend.
  exists s'. split.
  { unfold parse_cstring_from_stream. fold (positioned s sp). rewrite Hloop.
    reflexivity. }
  split; [lia |].
  unfold Stream.rest. apply drop_ge. rewrite Hd, Hdata. lia.
Qed.

Lemma parse_cstring_exhausts_witness :
  exists s',
    parse_cstring_from_stream 3 (Stream.of_bytes truncated_table) None
      = Some (s', None) /\
    Stream.pos s' = 2%nat.
Proof.
  destruct (parse_cstring_exhausts 3 (Stream.of_bytes truncated_table) None)
    as (s' & Hparse & Hpos & _).
  - simpl. lia.
  - apply cstring_of_None_iff. reflexivity.
  - exists s'. split; [exact Hparse | exact Hpos].
Defined.

(** ** More on [lazy] *)

Section LazyMore.

Context {V : Type}.


End LazyMore.


(** ** More on the abbreviation table *)

Section AbbrevTableMore.

Context {Container : Type}.
Variable structs : DWARFStructs Container.

Implicit Types (t : AbbrevTable Container) (s : Stream) (code : Z)
  (d : AbbrevDecl Container) (m : gmap Z (AbbrevDecl Container)).

Lemma next_not_yield t s s' g r :
  next structs t s = (s', g, r) ->
  (forall d, r <> Return (Some d)) ->
  g = GenFinished.
Proof.
  unfold next. intros Hn Hr.
  destruct r as [[d |] | e]; [exfalso; exact (Hr d eq_refl) | |];
    destruct (_parser_state t);
    solve [ apply parser_stop in Hn; tauto
          | apply parser_raise in Hn; tauto
          | injection Hn as _ <-; reflexivity
          | discriminate ].
Qed.

Lemma get_abbrev_loop_raise fuel :
  forall t s code s' t' e,
    get_abbrev_loop structs fuel t s code = Some (s', t', Raise e) ->
    _parser_state t' = GenFinished.
Proof.
  induction fuel as [| fuel IH]; intros t s code s' t' e H; simpl in H;
    [discriminate |].
  destruct (next structs t s) as [[s1 g] [[d1 |] | e1]] eqn:Hnext.
  - destruct (AbbrevDecl.code d1 =? code); [discriminate |].
    exact (IH _ _ _ _ _ _ H).
  - injection H as <- <- <-. simpl.
    apply (next_not_yield _ _ _ _ _ Hnext). discriminate.
  - injection H as <- <- <-. simpl.
    apply (next_not_yield _ _ _ _ _ Hnext). discriminate.
Qed.

(** X13. A call of [get_abbrev] that raises, also one that raises
    [ELFParseError], leaves the parser finished: it keeps what the cache
    held, and from then on a call for a code that is not in the cache raises
    [KeyError] and leaves stream and table as they are. *)
Theorem get_abbrev_after_failure (fuel : nat) t s code s' t' (e : exn) :
  get_abbrev structs fuel t s code = Some (s', t', Raise e) ->
  _parser_state t' = GenFinished /\
  (forall k, is_Some (_abbrev_map t !! k) -> is_Some (_abbrev_map t' !! k)) /\
  (forall code2 fuel2 s2,
     _abbrev_map t' !! code2 = None ->
     get_abbrev structs (S fuel2) t' s2 code2
       = Some (s2, t', Raise (KeyError code2))).
Proof.
  intros H.
  assert (Hfin : _parser_state t' = GenFinished).
  { unfold get_abbrev in H. destruct (_abbrev_map t !! code); [discriminate |].
    exact (get_abbrev_loop_raise _ _ _ _ _ _ _ H). }
  split; [exact Hfin |]. split.
  - exact (proj1 (get_abbrev_cache structs _ _ _ _ _ _ _ H)).
  - intros code2 fuel2 s2 Hmiss. apply get_abbrev_finished; assumption.
Qed.

Lemma entries_at_app data es1 : forall es2 off off',
  entries_at structs data off (es1 ++ es2) off' <->
  exists mid, entries_at structs data off es1 mid /\
              entries_at structs data mid es2 off'.
Proof.
  induction es1 as [| d es1 IH]; intros es2 off off'; simpl.
  - split.
    + intros H. exists off. split; [reflexivity | exact H].
    + intros (mid & -> & H). exact H.
  - split.
    + intros (nxt & He & Hes). apply IH in Hes. destruct Hes as (mid & H1 & H2).
      exists mid. split; [exists nxt; split; assumption | exact H2].
    + intros (mid & (nxt & He & H1) & H2). exists nxt. split; [exact He |].
      apply IH. exists mid. split; assumption.
Qed.

(** X14. The requested code is not in the cache; from the cursor on there
    are entries with other codes and then an entry [d] with this code. With
    fuel for these entries [get_abbrev] returns [d], the first entry with
    the code, has stored the entries it passed and [d], and keeps the
    cursor right after [d], where it also leaves the stream. *)
Theorem get_abbrev_first_match (fuel : nat) t s code (c : nat)
    (es : list (AbbrevDecl Container)) d (off' : nat) :
  _abbrev_map t !! code = None ->
  cursor t = Some c ->
  entries_at structs (Stream.data s) c (es ++ [d]) off' ->
  Forall (fun d' => AbbrevDecl.code d' <> code) es ->
  AbbrevDecl.code d = code ->
  (length es < fuel)%nat ->
  exists s' t',
    get_abbrev structs fuel t s code = Some (s', t', Return d) /\
    _parser_state t' = GenSuspended off' /\
    _abbrev_map t' = cache_with (es ++ [d]) (_abbrev_map t) /\
    Stream.pos s' = off' /\
    Stream.data s' = Stream.data s.
Proof.
  intros Hmiss Hc Hes Hne Hd Hfuel.
  apply entries_at_app in Hes. destruct Hes as (mid & Hes & (nxt & He & ->)).
  destruct (get_abbrev_loop_skip structs code es t s c mid Hc Hes Hne)
    as (s1 & t1 & Hdata & Hcur & Hoff & Hmap & Hloop).
  rewrite <- Hdata in He.
  pose proof (get_abbrev_loop_entry structs 0 t1 s1 code mid d nxt Hcur He) as Hlast.
  cbn zeta in Hlast. rewrite Hd, Z.eqb_refl in Hlast.
  eexists _, _. split.
  { unfold get_abbrev. rewrite Hmiss.
    apply (get_abbrev_loop_fuel structs (length es + 1)); [| lia].
    rewrite Hloop. exact Hlast. }
  simpl. split; [reflexivity |]. split.
  - unfold cache_with. rewrite foldl_app. simpl. rewrite Hmap, Hd. reflexivity.
  - split; [reflexivity | exact Hdata].
Qed.

End AbbrevTableMore.

Lemma get_abbrev_after_failure_witness :
  exists s' t' msg,
    get_abbrev dwarf_structs 3 (AbbrevTable__init__ 0)
      (Stream.of_bytes truncated_table) 3 = Some (s', t', Raise (ELFParseError msg)) /\
    forall fuel2 s2,
      get_abbrev dwarf_structs (S fuel2) t' s2 3 = Some (s2, t', Raise (KeyError 3)).
Proof.
  eexists _, _, _. split; [vm_compute; reflexivity |].
  intros fuel2 s2.
  refine (proj2 (proj2 (get_abbrev_after_failure dwarf_structs 3
                          (AbbrevTable__init__ 0) (Stream.of_bytes truncated_table)
                          3 _ _ _ _)) 3 fuel2 s2 _).
  - vm_compute. reflexivity.
  - reflexivity.
Defined.

Lemma get_abbrev_first_match_witness :
  exists s' t',
    get_abbrev dwarf_structs 2 (AbbrevTable__init__ 2)
      (Stream.of_bytes table_3_1_7) 1 = Some (s', t', Return (AbbrevDecl.mk 1 body_1)) /\
    _parser_state t' = GenSuspended 16 /\
    Stream.pos s' = 16%nat.
Proof.
  destruct (get_abbrev_first_match dwarf_structs 2 (AbbrevTable__init__ 2)
              (Stream.of_bytes table_3_1_7) 1 2
              [AbbrevDecl.mk 3 body_3] (AbbrevDecl.mk 1 body_1) 16)
    as (s' & t' & Hcall & Hstate & _ & Hpos & _).
  - reflexivity.
  - reflexivity.
  - exists 9%nat. split; [reflexivity |]. exists 16%nat. split; reflexivity.
  - repeat constructor. simpl. lia.
  - reflexivity.
  - simpl. lia.
  - exists s', t'. split; [exact Hcall |]. split; [exact Hstate | exact Hpos].
Defined.

Section AbbrevTableInvariants.

Context {Container : Type}.
Variable structs : DWARFStructs Container.

Implicit Types (t : AbbrevTable Container) (s : Stream) (code : Z)
  (d : AbbrevDecl Container) (m : gmap Z (AbbrevDecl Container)).

Lemma keys_match_insert m d :
  keys_match m -> keys_match (<[AbbrevDecl.code d := d]> m).
Proof.
  intros Hm k d'. destruct (decide (AbbrevDecl.code d = k)) as [<- | Hne].
  - rewrite lookup_insert_eq. intros [= <-]. reflexivity.
  - rewrite lookup_insert_ne by exact Hne. apply Hm.
Qed.

Lemma get_abbrev_loop_keys fuel :
  forall t s code s' t' r,
    get_abbrev_loop structs fuel t s code = Some (s', t', r) ->
    keys_match (_abbrev_map t) -> keys_match (_abbrev_map t').
Proof.
  induction fuel as [| fuel IH]; intros t s code s' t' r H Hk; simpl in H;
    [discriminate |].
  destruct (next structs t s) as [[s1 g] [[d1 |] | e1]].
  - destruct (AbbrevDecl.code d1 =? code).
    + injection H as <- <- <-. simpl. apply keys_match_insert, Hk.
    + apply (IH _ _ _ _ _ _ H). simpl. apply keys_match_insert, Hk.
  - injection H as <- <- <-. exact Hk.
  - injection H as <- <- <-. exact Hk.
Qed.

Lemma get_abbrev_keys fuel t s code s' t' r :
  get_abbrev structs fuel t s code = Some (s', t', r) ->
  keys_match (_abbrev_map t) -> keys_match (_abbrev_map t').
Proof.
  unfold get_abbrev. destruct (_abbrev_map t !! code).
  - intros [= <- <- <-]. tauto.
  - apply get_abbrev_loop_keys.
Qed.

Lemma evolves_keys t t' :
  evolves structs t t' -> keys_match (_abbrev_map t) -> keys_match (_abbrev_map t').
Proof.
  induction 1 as [t | t fuel s code s' t' r t'' Hcall _ IH]; [tauto |].
  intros Hk. apply IH. exact (get_abbrev_keys _ _ _ _ _ _ _ Hcall Hk).
Qed.

(** X15. On a table reached from a new one by calls of [get_abbrev], every
    declaration of the cache is stored under its own code, and a
    declaration that [get_abbrev code] returns has the code [code]. *)
Theorem get_abbrev_returns_requested_code (fuel : nat) t s code s' t' d :
  reachable structs t ->
  get_abbrev structs fuel t s code = Some (s', t', Return d) ->
  AbbrevDecl.code d = code /\ keys_match (_abbrev_map t').
Proof.
  intros [off Hreach] Hcall.
  assert (Hk : keys_match (_abbrev_map t)).
  { apply (evolves_keys _ _ Hreach). intros k d' H. simpl in H.
    rewrite lookup_empty in H. discriminate H. }
  pose proof (get_abbrev_keys _ _ _ _ _ _ _ Hcall Hk) as Hk'.
  split; [| exact Hk'].
  apply Hk'. exact (get_abbrev_cached structs _ _ _ _ _ _ _ Hcall).
Qed.

Lemma parser_same_data s1 s2 off s1' g r :
  Stream.data s1 = Stream.data s2 ->
  _abbrev_table_parser structs s1 off = (s1', g, r) ->
  exists s2',
    _abbrev_table_parser structs s2 off = (s2', g, r) /\
    Stream.data s1' = Stream.data s1 /\
    Stream.data s2' = Stream.data s2 /\
    Stream.pos s2' = Stream.pos s1'.
Proof.
  intros Hdata.
  unfold _abbrev_table_parser, struct_parse, parse_stream. simpl.
  rewrite <- Hdata.
  destruct (_parse (Dwarf_uleb128 structs EmptyString) (Stream.data s1) off)
    as [[tr1 p1] [c | e1]].
  - destruct (c =? 0); simpl.
    + intros [= <- <- <-]. eexists. repeat split.
    + destruct (_parse (Dwarf_abbrev_declaration structs) (Stream.data s1) p1)
        as [[tr2 p2] [b | e2]].
      * intros [= <- <- <-]. eexists. repeat split.
      * destruct e2; intros [= <- <- <-]; eexists; repeat split.
  - destruct e1; intros [= <- <- <-]; eexists; repeat split.
Qed.

Lemma get_abbrev_loop_same_data fuel :
  forall t s1 s2 code s1' t' r,
    Stream.data s1 = Stream.data s2 ->
    get_abbrev_loop structs fuel t s1 code = Some (s1', t', r) ->
    exists s2',
      get_abbrev_loop structs fuel t s2 code = Some (s2', t', r) /\
      Stream.data s1' = Stream.data s1 /\
      Stream.data s2' = Stream.data s2 /\
      (_parser_state t = GenFinished \/ Stream.pos s2' = Stream.pos s1').
Proof.
  induction fuel as [| fuel IH]; intros t s1 s2 code s1' t' r Hdata H;
    simpl in H; [discriminate |]. simpl.
  assert (Hnext : forall s1n g rn,
            next structs t s1 = (s1n, g, rn) ->
            exists s2n, next structs t s2 = (s2n, g, rn) /\
                        Stream.data s1n = Stream.data s1 /\
                        Stream.data s2n = Stream.data s2 /\
                        (_parser_state t = GenFinished \/
                         Stream.pos s2n = Stream.pos s1n)).
  { unfold next. intros s1n g rn Hn. destruct (_parser_state t).
    - destruct (parser_same_data _ _ _ _ _ _ Hdata Hn) as (s2n & -> & ? & ? & ?).
      exists s2n. tauto.
    - destruct (parser_same_data _ _ _ _ _ _ Hdata Hn) as (s2n & -> & ? & ? & ?).
      exists s2n. tauto.
    - injection Hn as <- <- <-. exists s2. tauto. }
  destruct (next structs t s1) as [[s1n g] rn] eqn:Hn1.
  destruct (Hnext _ _ _ eq_refl) as (s2n & -> & Hd1 & Hd2 & Hpos).
  destruct rn as [[d1 |] | e1].
  - destruct (AbbrevDecl.code d1 =? code).
    + injection H as <- <- <-. exists s2n. tauto.
    + destruct (IH _ s1n s2n _ _ _ _ ltac:(congruence) H)
        as (s2' & Hloop & Hda & Hdb & Hp).
      exists s2'. split; [exact Hloop |].
      split; [congruence |]. split; [congruence |].
      simpl in Hp. destruct Hp as [Hp | Hp]; [| right; exact Hp].
      destruct Hpos as [Hfin | _]; [left; exact Hfin |].
      exfalso. unfold next in Hn1. destruct (_parser_state t) eqn:Hst.
      * apply parser_yield in Hn1. destruct Hn1 as (_ & -> & _). discriminate.
      * apply parser_yield in Hn1. destruct Hn1 as (_ & -> & _). discriminate.
      * discriminate.
  - injection H as <- <- <-. exists s2n. tauto.
  - injection H as <- <- <-. exists s2n. tauto.
Qed.

(** X16. A lookup does not depend on where the stream is when
    [get_abbrev] is called: on two streams with the same data the call
    returns or raises the same and leaves the table in the same state; and
    it leaves the data of the stream as it is. *)
Theorem get_abbrev_ignores_position (fuel : nat) t s1 s2 code s1' t' r :
  Stream.data s1 = Stream.data s2 ->
  get_abbrev structs fuel t s1 code = Some (s1', t', r) ->
  exists s2',
    get_abbrev structs fuel t s2 code = Some (s2', t', r) /\
    Stream.data s1' = Stream.data s1 /\
    Stream.data s2' = Stream.data s2.
Proof.
  intros Hdata. unfold get_abbrev.
  destruct (_abbrev_map t !! code) as [d |].
  - intros [= <- <- <-]. exists s2. repeat split.
  - intros H.
    destruct (get_abbrev_loop_same_data _ _ _ _ _ _ _ _ Hdata H)
      as (s2' & Hloop & Hd1 & Hd2 & _).
    exists s2'. repeat split; assumption.
Qed.

(** X17. Over well-behaved layouts [get_abbrev] ends for every table, stream
    and code once the fuel exceeds the length of the data. It then either
    returns a declaration, which is in the cache under the code, or raises
    [KeyError] for the code or the [ELFParseError] of a failed decode and
    leaves the parser finished. *)
Theorem get_abbrev_total (fuel : nat) t s code :
  well_behaved structs ->
  (length (Stream.data s) < fuel)%nat ->
  exists s' t' r,
    get_abbrev structs fuel t s code = Some (s', t', r) /\
    match r with
    | Return d => _abbrev_map t' !! code = Some d
    | Raise e =>
        _parser_state t' = GenFinished /\
        (e = KeyError code \/ exists msg, e = ELFParseError msg)
    end.
Proof.
  intros Hwb Hfuel.
  destruct (_abbrev_map t !! code) as [d |] eqn:Hhit.
  { exists s, t, (Return d). split; [apply get_abbrev_hit, Hhit | exact Hhit]. }
  destruct (cursor t) as [c |] eqn:Hc.
  - destruct (get_abbrev_loop_total structs Hwb fuel t s code c Hc ltac:(lia))
      as (s' & t' & r & Hloop & Hr).
    assert (Hcall : get_abbrev structs fuel t s code = Some (s', t', r))
      by (unfold get_abbrev; rewrite Hhit; exact Hloop).
    exists s', t', r. split; [exact Hcall |].
    destruct r as [d | e]; [| exact Hr].
    exact (get_abbrev_cached structs _ _ _ _ _ _ _ Hcall).
  - assert (Hfin : _parser_state t = GenFinished).
    { unfold cursor in Hc. destruct (_parser_state t); congruence. }
    destruct fuel as [| fuel]; [lia |].
    exists s, t, (Raise (KeyError code)).
    split; [apply get_abbrev_finished; assumption |].
    split; [exact Hfin | left; reflexivity].
Qed.

End AbbrevTableInvariants.

Section AbbrevTablePrefix.

Context {Container : Type}.
Variable structs : DWARFStructs Container.

Implicit Types (t : AbbrevTable Container) (s : Stream) (code : Z)
  (d : AbbrevDecl Container) (m : gmap Z (AbbrevDecl Container)).

Lemma get_abbrev_loop_prefix fuel :
  forall t s code s' t' r,
    get_abbrev_loop structs fuel t s code = Some (s', t', r) ->
    holds_prefix structs (Stream.data s) t ->
    holds_prefix structs (Stream.data s) t' /\ offset t' = offset t.
Proof.
  induction fuel as [| fuel IH]; intros t s code s' t' r H Hinv; simpl in H;
    [discriminate |].
  destruct Hinv as (es & off' & Hes & Hmap & Hcur).
  destruct (next structs t s) as [[s1 g] rn] eqn:Hnext.
  assert (Hstop : (forall d1, rn <> Return (Some d1)) ->
            holds_prefix structs (Stream.data s)
              {| offset := offset t; _parser_state := g;
                 _abbrev_map := _abbrev_map t |}).
  { intros Hrn. rewrite (next_not_yield structs _ _ _ _ _ Hnext Hrn).
    exists es, off'. split; [exact Hes |]. split; [exact Hmap |]. right. reflexivity. }
  destruct rn as [[d1 |] | e1].
  - assert (Hc : cursor t = Some off').
    { destruct Hcur as [Hc | Hc]; [exact Hc |].
      unfold next in Hnext. unfold cursor in Hc.
      destruct (_parser_state t); try discriminate Hc. discriminate Hnext. }
    rewrite (next_cursor structs t s off' Hc) in Hnext.
    destruct (parser_yield structs _ _ _ _ _ Hnext) as (_ & -> & He & Hdata).
    assert (Hinv1 : holds_prefix structs (Stream.data s)
              {| offset := offset t; _parser_state := GenSuspended (Stream.pos s1);
                 _abbrev_map := <[AbbrevDecl.code d1 := d1]> (_abbrev_map t) |}).
    { exists (es ++ [d1]), (Stream.pos s1). split.
      - apply entries_at_app. exists off'. split; [exact Hes |].
        exists (Stream.pos s1). split; [exact He | reflexivity].
      - split; [| left; reflexivity].
        simpl. unfold cache_with. rewrite foldl_app. simpl.
        fold (cache_with es (∅ : gmap Z (AbbrevDecl Container))).
        rewrite <- Hmap. reflexivity. }
    destruct (AbbrevDecl.code d1 =? code).
    + injection H as <- <- <-. split; [exact Hinv1 | reflexivity].
    + rewrite <- Hdata in Hinv1.
      destruct (IH _ _ _ _ _ _ H Hinv1) as [Hinv' Hoff].
      rewrite Hdata in Hinv'. split; [exact Hinv' | exact Hoff].
  - injection H as <- <- <-. split; [| reflexivity]. apply Hstop. discriminate.
  - injection H as <- <- <-. split; [| reflexivity]. apply Hstop. discriminate.
Qed.

Lemma get_abbrev_prefix fuel t s code s' t' r :
  get_abbrev structs fuel t s code = Some (s', t', r) ->
  holds_prefix structs (Stream.data s) t ->
  holds_prefix structs (Stream.data s) t' /\ offset t' = offset t.
Proof.
  unfold get_abbrev. destruct (_abbrev_map t !! code).
  - intros [= <- <- <-]. tauto.
  - apply get_abbrev_loop_prefix.
Qed.


End AbbrevTablePrefix.

Lemma get_abbrev_returns_requested_code_witness :
  exists s' t' d,
    get_abbrev dwarf_structs 3 (AbbrevTable__init__ 2)
      (Stream.of_bytes table_3_1_7) 7 = Some (s', t', Return d) /\
    AbbrevDecl.code d = 7.
Proof.
  eexists _, _, _. split; [vm_compute; reflexivity |].
  refine (proj1 (get_abbrev_returns_requested_code dwarf_structs 3
                   (AbbrevTable__init__ 2) (Stream.of_bytes table_3_1_7) 7
                   _ _ _ _ _)).
  - exists 2%nat. apply evolves_refl.
  - vm_compute. reflexivity.
Defined.

Lemma get_abbrev_ignores_position_witness :
  exists s2' t',
    get_abbrev dwarf_structs 3 (AbbrevTable__init__ 2)
      (Stream.seek 20 (Stream.of_bytes table_3_1_7)) 7
    = Some (s2', t', Return (AbbrevDecl.mk 7 body_7)).
Proof.
  edestruct (get_abbrev_ignores_position dwarf_structs 3 (AbbrevTable__init__ 2)
               (Stream.of_bytes table_3_1_7)
               (Stream.seek 20 (Stream.of_bytes table_3_1_7)) 7)
    as (s2' & Hcall & _); [reflexivity | vm_compute; reflexivity |].
  eexists _, _. exact Hcall.
Defined.

Lemma get_abbrev_total_witness :
  exists s' t' r,
    get_abbrev dwarf_structs 27 (AbbrevTable__init__ 2)
      (Stream.of_bytes table_3_1_7) 5 = Some (s', t', r).
Proof.
  destruct (get_abbrev_total dwarf_structs 27 (AbbrevTable__init__ 2)
              (Stream.of_bytes table_3_1_7) 5)
    as (s' & t' & r & Hcall & _).
  - exact dwarf_structs_well_behaved.
  - simpl. lia.
  - exists s', t', r. exact Hcall.
Defined.


(** ** Memoization over the life of a table *)

Section AbbrevTableMemo.

Context {Container : Type}.
Variable structs : DWARFStructs Container.

Implicit Types (t : AbbrevTable Container) (s : Stream) (code : Z)
  (d : AbbrevDecl Container) (m : gmap Z (AbbrevDecl Container)).

Lemma evolves_on_evolves data t t' :
  evolves_on structs data t t' -> evolves structs t t'.
Proof.
  induction 1 as [t | t fuel s code s' t' r t'' _ Hcall _ IH];
    [apply evolves_refl |].
  exact (evolves_step structs _ _ _ _ _ _ _ _ Hcall IH).
Qed.

Lemma evolves_on_prefix data t t' :
  evolves_on structs data t t' ->
  holds_prefix structs data t ->
  holds_prefix structs data t' /\ offset t' = offset t.
Proof.
  induction 1 as [t | t fuel s code s' t' r t'' Hdata Hcall _ IH];
    intros Hinv; [tauto |].
  rewrite <- Hdata in Hinv.
  destruct (get_abbrev_prefix structs _ _ _ _ _ _ _ Hcall Hinv) as [Hinv1 Hoff1].
  rewrite Hdata in Hinv1. destruct (IH Hinv1) as [Hinv2 Hoff2].
  split; [exact Hinv2 | congruence].
Qed.

(** A declaration found in the cache under a code is one of the stored
    entries, and has this code. *)
Lemma cache_with_lookup es : forall m code d,
  cache_with es m !! code = Some d ->
  m !! code = Some d \/ (d ∈ es /\ AbbrevDecl.code d = code).
Proof.
  unfold cache_with.
  induction es as [| d0 es IH]; intros m code d H; simpl in H; [left; exact H |].
  destruct (IH _ _ _ H) as [Hm | [Hin Hc]].
  - destruct (decide (AbbrevDecl.code d0 = code)) as [Heq | Hne].
    + rewrite Heq, lookup_insert_eq in Hm. injection Hm as <-.
      right. split; [left | exact Heq].
    + rewrite lookup_insert_ne in Hm by exact Hne. left. exact Hm.
  - right. split; [right; exact Hin | exact Hc].
Qed.

(** Two runs of entries from the same offset lie in one run. *)
Lemma entries_at_common data es1 : forall es2 off o1 o2,
  entries_at structs data off es1 o1 ->
  entries_at structs data off es2 o2 ->
  exists es o,
    entries_at structs data off es o /\
    (forall d, d ∈ es1 -> d ∈ es) /\ (forall d, d ∈ es2 -> d ∈ es).
Proof.
  induction es1 as [| d1 es1 IH]; intros es2 off o1 o2 H1 H2.
  - exists es2, o2. split; [exact H2 |]. split; [| tauto].
    intros d Hd. apply elem_of_nil in Hd. destruct Hd.
  - destruct es2 as [| d2 es2].
    + exists (d1 :: es1), o1. split; [exact H1 |]. split; [tauto |].
      intros d Hd. apply elem_of_nil in Hd. destruct Hd.
    + destruct H1 as (n1 & He1 & H1), H2 as (n2 & He2 & H2).
      rewrite He1 in He2. injection He2 as <- <-.
      destruct (IH _ _ _ _ H1 H2) as (es & o & Hes & Hin1 & Hin2).
      exists (d1 :: es), o. split; [exists n1; split; assumption |].
      split; intros d Hd; apply elem_of_cons in Hd;
        (destruct Hd as [-> | Hd]; [left | right; auto]).
Qed.

Lemma NoDup_map_eq {A B} (f : A -> B) (l : list A) (x y : A) :
  NoDup (map f l) -> x ∈ l -> y ∈ l -> f x = f y -> x = y.
Proof.
  induction l as [| a l IH]; intros Hnd Hx Hy Hf.
  - apply elem_of_nil in Hx. destruct Hx.
  - simpl in Hnd. apply NoDup_cons in Hnd. destruct Hnd as [Ha Hnd].
    apply elem_of_cons in Hx. apply elem_of_cons in Hy.
    destruct Hx as [-> | Hx], Hy as [-> | Hy].
    + reflexivity.
    + exfalso. apply Ha. rewrite Hf. apply list_elem_of_fmap. eauto.
    + exfalso. apply Ha. rewrite <- Hf. apply list_elem_of_fmap. eauto.
    + exact (IH Hnd Hx Hy Hf).
Qed.

(** C2, as the code has it. After a call [get_abbrev code] that returned a
    declaration, the next call with the same code returns the same
    declaration and leaves the stream, with its log of accesses, and the
    table as they are. After any further calls on the table a call with this
    code is still answered from the cache, without an access to the stream.
    It returns the same declaration when the entries of the table have
    pairwise different codes. *)
Theorem get_abbrev_memoized (fuel : nat) t s code s' t' d :
  get_abbrev structs fuel t s code = Some (s', t', Return d) ->
  (forall fuel2 s2,
     get_abbrev structs fuel2 t' s2 code = Some (s2, t', Return d)) /\
  (forall t'', evolves structs t' t'' ->
     forall fuel2 s2, exists d',
       _abbrev_map t'' !! code = Some d' /\
       get_abbrev structs fuel2 t'' s2 code = Some (s2, t'', Return d')) /\
  (forall data (off : nat) t'',
     evolves_on structs data (AbbrevTable__init__ off) t' ->
     evolves_on structs data t' t'' ->
     unique_codes structs data off ->
     forall fuel2 s2,
       get_abbrev structs fuel2 t'' s2 code = Some (s2, t'', Return d)).
Proof.
  intros H. apply get_abbrev_cached in H.
  assert (Hlater : forall t'', evolves structs t' t'' ->
            exists d', _abbrev_map t'' !! code = Some d').
  { intros t'' Hev.
    destruct (proj1 (evolves_cache structs _ _ Hev) code) as [d' Hd']; eauto. }
  split; [| split].
  - intros fuel2 s2. apply get_abbrev_hit, H.
  - intros t'' Hev fuel2 s2. destruct (Hlater t'' Hev) as [d' Hd'].
    exists d'. split; [exact Hd' |]. apply get_abbrev_hit, Hd'.
  - intros data off t'' Hinit Hev Huniq fuel2 s2.
    destruct (Hlater t'' (evolves_on_evolves _ _ _ Hev)) as [d' Hd'].
    apply get_abbrev_hit. rewrite Hd'. f_equal.
    assert (Hnew : holds_prefix structs data (AbbrevTable__init__ off)).
    { exists [], off. split; [reflexivity |]. split; [reflexivity |].
      left. reflexivity. }
    destruct (evolves_on_prefix _ _ _ Hinit Hnew) as [Hp1 Hoff1].
    destruct (evolves_on_prefix _ _ _ Hev Hp1) as [Hp2 Hoff2].
    destruct Hp1 as (es1 & o1 & Hes1 & Hmap1 & _).
    destruct Hp2 as (es2 & o2 & Hes2 & Hmap2 & _).
    rewrite Hoff1 in Hes1. rewrite Hoff2, Hoff1 in Hes2. simpl in Hes1, Hes2.
    rewrite Hmap1 in H. rewrite Hmap2 in Hd'.
    apply cache_with_lookup in H. apply cache_with_lookup in Hd'.
    destruct H as [H | [Hin1 Hc1]]; [rewrite lookup_empty in H; discriminate H |].
    destruct Hd' as [Hd' | [Hin2 Hc2]];
      [rewrite lookup_empty in Hd'; discriminate Hd' |].
    destruct (entries_at_common _ _ _ _ _ _ Hes1 Hes2)
      as (es & o & Hes & Hsub1 & Hsub2).
    apply (NoDup_map_eq AbbrevDecl.code es d' d (Huniq _ _ Hes));
      [apply Hsub2, Hin2 | apply Hsub1, Hin1 | congruence].
Qed.

End AbbrevTableMemo.

Lemma table_3_1_7_unique_codes : unique_codes dwarf_structs table_3_1_7 2.
Proof.
  intros es off' H.
  destruct es as [| e1 es]; [constructor |].
  destruct H as (n1 & He1 & H). vm_compute in He1. injection He1 as <- <-.
  destruct es as [| e2 es];
    [simpl; repeat (apply NoDup_cons_2; [not_in_list |]); apply NoDup_nil_2 |].
  destruct H as (n2 & He2 & H). vm_compute in He2. injection He2 as <- <-.
  destruct es as [| e3 es];
    [simpl; repeat (apply NoDup_cons_2; [not_in_list |]); apply NoDup_nil_2 |].
  destruct H as (n3 & He3 & H). vm_compute in He3. injection He3 as <- <-.
  destruct es as [| e4 es];
    [simpl; repeat (apply NoDup_cons_2; [not_in_list |]); apply NoDup_nil_2 |].
  destruct H as (n4 & He4 & H). vm_compute in He4. discriminate He4.
Qed.

Lemma get_abbrev_memoized_witness :
  exists s1 t1 s2 t2,
    get_abbrev dwarf_structs 3 (AbbrevTable__init__ 2) (Stream.of_bytes table_3_1_7) 3
      = Some (s1, t1, Return (AbbrevDecl.mk 3 body_3)) /\
    (forall fuel2 s,
       get_abbrev dwarf_structs fuel2 t1 s 3
         = Some (s, t1, Return (AbbrevDecl.mk 3 body_3))) /\
    get_abbrev dwarf_structs 3 t1 (Stream.of_bytes table_3_1_7) 7
      = Some (s2, t2, Return (AbbrevDecl.mk 7 body_7)) /\
    forall fuel2 s,
      get_abbrev dwarf_structs fuel2 t2 s 3
        = Some (s, t2, Return (AbbrevDecl.mk 3 body_3)).
Proof.
  eexists _, _, _, _.
  split; [vm_compute; reflexivity |].
  split; [| split; [vm_compute; reflexivity |]].
  - refine (proj1 (get_abbrev_memoized dwarf_structs 3 (AbbrevTable__init__ 2)
                     (Stream.of_bytes table_3_1_7) 3 _ _ _ _)).
    vm_compute. reflexivity.
  - refine (proj2 (proj2 (get_abbrev_memoized dwarf_structs 3
                            (AbbrevTable__init__ 2)
                            (Stream.of_bytes table_3_1_7) 3 _ _ _ _))
              table_3_1_7 2%nat _ _ _ table_3_1_7_unique_codes).
    + vm_compute. reflexivity.
    + eapply evolves_on_step with (fuel := 3%nat) (code := 3)
        (stream := Stream.of_bytes table_3_1_7);
        [reflexivity | vm_compute; reflexivity | apply evolves_on_refl].
    + eapply evolves_on_step with (fuel := 3%nat) (code := 7)
        (stream := Stream.of_bytes table_3_1_7);
        [reflexivity | vm_compute; reflexivity | apply evolves_on_refl].
Defined.

(** C2, as stated, fails: on a table that holds two entries of code 3, the
    first [get_abbrev 3] returns the first of them; a [get_abbrev 7] then
    passes the second and stores it over the first; and the second
    [get_abbrev 3] returns the second entry, another declaration. *)
Lemma get_abbrev_repeated_code_overwrites :
  ~ (forall s1 t1 d s2 t2 r s3 t3 d',
       get_abbrev dwarf_structs 3 (AbbrevTable__init__ 0)
         (Stream.of_bytes table_3_3_7) 3 = Some (s1, t1, Return d) ->
       get_abbrev dwarf_structs 3 t1 s1 7 = Some (s2, t2, r) ->
       get_abbrev dwarf_structs 3 t2 s2 3 = Some (s3, t3, Return d') ->
       d' = d).
Proof.
  intros H.
  destruct (get_abbrev dwarf_structs 3 (AbbrevTable__init__ 0)
              (Stream.of_bytes table_3_3_7) 3) as [[[s1 t1] r1] |] eqn:H1;
    vm_compute in H1; [| discriminate H1].
  injection H1 as <- <- <-.
  match type of H with
  | forall s1 t1 d s2 t2 r s3 t3 d', _ = Some (s1, t1, _) -> _ =>
      specialize (fun s2 t2 r s3 t3 d' => H _ _ _ s2 t2 r s3 t3 d' eq_refl)
  end.
  match type of H with
  | forall s2 t2 r s3 t3 d', ?call = _ -> _ =>
      destruct call as [[[s2 t2] r2] |] eqn:H2;
        vm_compute in H2; [| discriminate H2]
  end.
  injection H2 as <- <- <-.
  specialize (fun s3 t3 d' => H _ _ _ s3 t3 d' eq_refl).
  match type of H with
  | forall s3 t3 d', ?call = _ -> _ =>
      destruct call as [[[s3 t3] r3] |] eqn:H3;
        vm_compute in H3; [| discriminate H3]
  end.
  injection H3 as <- <- <-.
  specialize (H _ _ _ eq_refl). discriminate H.
Qed.
